(** * Governance contract transaction builder and big-integer codec

    A shallow embedding of
    [src/smartcontract/nativevm/governanceContractTxBuilder.ts] and of the
    [BigInt] class that follows it in the same source file, with the
    properties the specification states about them.

    JavaScript strings are [string]s whose characters are bytes (the
    SDK's [str2hexstr] encodes one character as one byte).  Hex blobs are
    strings of hexadecimal digits, two per byte.  Thrown values are
    modelled by the [Err] case of [Result]. *)

From Stdlib Require Import ZArith NArith QArith.QArith_base Ascii String List Lia.
From stdpp Require Import gmap strings.

Local Open Scope N_scope.

(** ** Errors and results *)

(** The error kinds of the specification's taxonomy (section 7).  The
    source throws [ERROR_CODE.INVALID_PARAMS], which is the taxonomy's
    [InvalidParams]; [TruncatedInput] is what the stream reader raises;
    [InvalidValue] is named by the specification only.  [Malformed] is the
    failure on a blob that is not a sequence of whole bytes written in hex
    digits, which section 6 excludes and the specification has no name
    for.  [BigNumberError] is an error of bignumber.js itself, thrown by
    [new BigNumber(value)] on a value the library refuses. *)
Inductive Error : Set :=
| INVALID_PARAMS
| TruncatedInput
| InvalidValue
| Malformed
| BigNumberError.

Inductive Result (A : Type) : Type :=
| Ok (a : A)
| Err (e : Error).
Arguments Ok {A} a.
Arguments Err {A} e.

Definition bind {A B : Type} (r : Result A) (k : A -> Result B) : Result B :=
  match r with
  | Ok a => k a
  | Err e => Err e
  end.

Notation "'let*' x ':=' r 'in' k" := (bind r (fun x => k))
  (at level 10, x pattern, r at level 100, k at level 200).

(** ** Hexadecimal digits *)

Definition hex_alphabet : string := "0123456789abcdef".

(** The digit character of a value below sixteen, lower case as
    [Number.prototype.toString(16)] and bignumber.js print it. *)
Definition hex_digit (d : N) : ascii :=
  match String.get (N.to_nat d) hex_alphabet with
  | Some c => c
  | None => "0"%char
  end.

(** The value of a digit character; both cases are read, as [parseInt] and
    bignumber.js do. *)
Definition digit_of_hex (c : ascii) : option N :=
  let code := N_of_ascii c in
  if (48 <=? code) && (code <=? 57) then Some (code - 48)
  else if (97 <=? code) && (code <=? 102) then Some (code - 87)
  else if (65 <=? code) && (code <=? 70) then Some (code - 55)
  else None.

(** Digits of [n] in base sixteen, most significant first, by repeated
    division; [fuel] bounds the number of digits. *)
Fixpoint hex_digits (fuel : nat) (n : N) : string :=
  match fuel with
  | O => ""
  | S f =>
      if n <? 16 then String (hex_digit n) ""
      else hex_digits f (n / 16) +:+ String (hex_digit (n mod 16)) ""
  end.

(** [new BigNumber(n).toString(16)] and [n.toString(16)] on a non-negative
    integer: the shortest digit string, ["0"] for zero. *)
Definition toString16 (n : N) : string :=
  hex_digits (S (N.to_nat (N.log2 n))) n.

(** Reading a digit string in base sixteen, left to right. *)
Fixpoint parse_hex_from (acc : N) (s : string) : option N :=
  match s with
  | "" => Some acc
  | String c r =>
      match digit_of_hex c with
      | Some d => parse_hex_from (16 * acc + d) r
      | None => None
      end
  end.

Definition parse_hex (s : string) : option N := parse_hex_from 0 s.

(** ** reverseHex (utils) *)

(** Modelled from the spec: the byte reversal of section 4.3, the pairs of
    digits of [s] in the opposite order; a dangling last digit is dropped,
    which [reverseHex] never lets happen. *)
Fixpoint rev_pairs (s : string) : string :=
  match s with
  | String a (String b r) => rev_pairs r +:+ String a (String b "")
  | _ => ""
  end.

(** Modelled from the spec: [reverseHex] of [utils] is not in the source
    at hand.  Section 4.3 calls it a byte reversal of a hex string and
    section 6 has every blob of even length, so a string with a dangling
    digit is refused. *)
Definition reverseHex (hex : string) : Result string :=
  if Nat.even (String.length hex) then Ok (rev_pairs hex) else Err Malformed.

(** ** bignumber.js values *)

(** What [new BigNumber(v)] denotes: not a number, an infinity, an exact
    rational (bignumber.js is an arbitrary-precision decimal) or the
    negative zero.  bignumber.js keeps the sign of a zero: [-0] and ['-0']
    are read as [BN_NegZero], every other zero as [BN_Finite 0]. *)
Inductive BigNumber : Set :=
| BN_NaN
| BN_Infinity (negative : bool)
| BN_Finite (q : Q)
| BN_NegZero.

(** [isInteger()]: the negative zero is an integer. *)
Definition isInteger (b : BigNumber) : bool :=
  match b with
  | BN_Finite q => (Qnum q mod Zpos (Qden q) =? 0)%Z
  | BN_NegZero => true
  | _ => false
  end.

(** [isNegative()]: the sign of the value is minus, which it is for the
    negative zero too. *)
Definition isNegative (b : BigNumber) : bool :=
  match b with
  | BN_Finite q => (Qnum q <? 0)%Z
  | BN_Infinity negative => negative
  | BN_NegZero => true
  | BN_NaN => false
  end.

Definition BN_of_Z (z : Z) : BigNumber := BN_Finite (inject_Z z).

(** The integer a finite value rounds down to. *)
Definition BN_floor (b : BigNumber) : Z :=
  match b with
  | BN_Finite q => (Qnum q / Zpos (Qden q))%Z
  | _ => 0%Z
  end.

(** [new BigNumber(hex, 16)] on a string of hex digits: the digits read
    in base sixteen.  A string with any other character is mapped to
    [BN_NaN]; of those, bignumber.js reads the ones with a sign or a point
    as numbers, which this model leaves out. *)
Definition BigNumber_of_hex (hex : string) : BigNumber :=
  match parse_hex hex with
  | Some n => BN_of_Z (Z.of_N n)
  | None => BN_NaN
  end.

(** ** class BigInt *)

Module BigInt.

(** A constructed [BigInt]: the number its [value] field denotes.  The
    constructor lets through non-negative integers only. *)
Record t : Set := mk { value : N }.

(** [constructor(value)] on a value as bignumber.js has read it: [value]
    stands for what [new BigNumber(value)] returned.  [construct] below has
    the reading too. *)
Definition new (value : BigNumber) : Result t :=
  let bi := value in
  if negb (isInteger bi) || isNegative bi then Err INVALID_PARAMS
  else Ok (mk (Z.to_N (BN_floor bi))).

(** [constructor(value)] in full, on a [value: string | number] of type
    [V].  [new BigNumber(value)] is the library's and is taken as the
    parameter [read]: it returns a [BigNumber] or throws an error of its
    own (some versions refuse a number primitive of more than 15
    significant digits, and every value that is not a number in debug
    mode), which the constructor does not catch. *)
Definition construct {V : Type} (read : V -> Result BigNumber) (value : V)
    : Result t :=
  let* bi := read value in
  if negb (isInteger bi) || isNegative bi then Err INVALID_PARAMS
  else Ok (mk (Z.to_N (BN_floor bi))).

(** [toHexstr()] *)
Definition toHexstr (this : t) : Result string :=
  let bi := value this in
  let hex := toString16 bi in
  let hex :=
    if negb (Nat.eqb (String.length hex mod 2) 0) then "0" +:+ hex else hex in
  reverseHex hex.

(** [static fromHexstr(hex)]: the decimal string between the two
    [BigNumber]s denotes the same number and is left out. *)
Definition fromHexstr (hex : string) : Result t :=
  let* hex := reverseHex hex in
  let bi := BigNumber_of_hex hex in
  new bi.

End BigInt.

(** ** The encoding rule in the specification's words (section 4.3) *)

(** A shortest digit string that reads as [n] in base sixteen, most
    significant digit first. *)
Definition minimal_hex (h : string) (n : N) : Prop :=
  h <> "" /\ parse_hex h = Some n /\
  forall h', h' <> "" -> parse_hex h' = Some n ->
             (String.length h <= String.length h')%nat.

(** Zero-padded to an even digit count. *)
Definition pad_even (h : string) : string :=
  if Nat.even (String.length h) then h else "0" +:+ h.

(** The bytes of a hex string, two digits each. *)
Fixpoint hex_bytes (s : string) : list string :=
  match s with
  | String a (String b r) => String a (String b "") :: hex_bytes r
  | _ => []
  end.

Fixpoint join (l : list string) : string :=
  match l with
  | [] => ""
  | x :: l => x +:+ join l
  end.

(** The same bytes, last one first. *)
Definition byte_reverse (s : string) : string := join (rev (hex_bytes s)).


(** ** The construction invariant in the specification's words *)

(** The value is an integer; a zero of either sign is one. *)
Definition integral (v : BigNumber) : Prop :=
  match v with
  | BN_Finite q => exists z : Z, Qeq q (inject_Z z)
  | BN_NegZero => True
  | _ => False
  end.

(** The value is the non-negative integer [n]; a zero of either sign is
    the integer 0. *)
Definition denotes (v : BigNumber) (n : N) : Prop :=
  match v with
  | BN_Finite q => Qeq q (inject_Z (Z.of_N n))
  | BN_NegZero => n = 0
  | _ => False
  end.

(** The value is below zero, which no zero is. *)
Definition negative (v : BigNumber) : Prop :=
  match v with
  | BN_Finite q => Qlt q (inject_Z 0)
  | BN_Infinity s => s = true
  | BN_NegZero => False
  | BN_NaN => False
  end.

(** bignumber.js outside debug mode, on a value it reads exactly: nothing
    is refused. *)
Definition read_exact (v : BigNumber) : Result BigNumber := Ok v.

(** bignumber.js in debug mode: a value that is not a number is refused
    with the library's own error. *)
Definition read_debug (v : BigNumber) : Result BigNumber :=
  match v with
  | BN_NaN => Err BigNumberError
  | _ => Ok v
  end.

(** ** Computations with a state and exceptions *)

(** A computation over a mutable object of type [S] (a [StringReader], a
    [Struct]) that returns or throws; the state it leaves is kept in both
    cases, so that what was done before a throw can be told. *)
Definition M (S A : Type) : Type := S -> Result A * S.

Definition ret {S A : Type} (a : A) : M S A := fun s => (Ok a, s).

Definition throw {S A : Type} (e : Error) : M S A := fun s => (Err e, s).

Definition bindM {S A B : Type} (m : M S A) (k : A -> M S B) : M S B :=
  fun s =>
    match m s with
    | (Ok a, s') => k a s'
    | (Err e, s') => (Err e, s')
    end.

Notation "x <- c ;; k" := (bindM c (fun x => k))
  (at level 100, c at next level, right associativity).
Notation "c ;; k" := (bindM c (fun _ => k))
  (at level 100, right associativity).

(** [for (const x of xs) body(x)] *)
Fixpoint for_of {S A : Type} (xs : list A) (body : A -> M S unit) : M S unit :=
  match xs with
  | [] => ret tt
  | x :: xs => body x ;; for_of xs body
  end.

(** The value a computation returns from a given state. *)
Definition eval {S A : Type} (m : M S A) (s : S) : Result A := fst (m s).

(** ** Conversions of utils *)

(** One byte as two hex digits. *)
Definition byte_hex (n : N) : string :=
  String (hex_digit (n / 16 mod 16)) (String (hex_digit (n mod 16)) "").

(** The number a digit string denotes; zero where it is not one. *)
Definition hex_value (s : string) : N :=
  match parse_hex s with
  | Some n => n
  | None => 0
  end.

(** Modelled from the spec: [str2hexstr] of [utils] is not in the source at
    hand; section 4.2 has strings turned into their bytes, hex-encoded. *)
Fixpoint str2hexstr (str : string) : string :=
  match str with
  | "" => ""
  | String c r => byte_hex (N_of_ascii c) +:+ str2hexstr r
  end.

(** Modelled from the spec: [hexstr2str] of [utils], the way back from the
    hex of section 4.2 to the string of its bytes. *)
Fixpoint hexstr2str (hex : string) : string :=
  match hex with
  | String a (String b r) =>
      String (ascii_of_N (hex_value (String a (String b "")))) (hexstr2str r)
  | _ => ""
  end.

(** Modelled from the spec: the little-endian layout of section 6, [size]
    bytes of [num], least significant byte first. *)
Fixpoint uint_le (size : nat) (num : N) : string :=
  match size with
  | O => ""
  | S k => byte_hex (num mod 256) +:+ uint_le k (num / 256)
  end.

(** Modelled from the spec: [size] bytes of [num], most significant byte
    first. *)
Fixpoint uint_be (size : nat) (num : N) : string :=
  match size with
  | O => ""
  | S k => uint_be k (num / 256) +:+ byte_hex (num mod 256)
  end.

(** Modelled from the spec: [num2hexstring(num, size = 1, littleEndian =
    false)] of [utils] is the [writeUint(value, width)] of section 4.1, a
    fixed-width unsigned integer of [size] bytes.  The specification
    restricts it to the width's range; of a larger number the model writes
    the low [size] bytes. *)
Definition num2hexstring (num : N) (size : nat) (littleEndian : bool) : string :=
  if littleEndian then uint_le size num else uint_be size num.

(** Modelled from the spec: the [writeVarLength] of sections 4.1 and 6 (the
    [num2VarInt] of [utils]): one byte below [0xFD], else a marker byte and
    a 2-, 4- or 8-byte little-endian length. *)
Definition num2VarInt (num : N) : string :=
  if num <? 0xFD then num2hexstring num 1 false
  else if num <=? 0xFFFF then "fd" +:+ num2hexstring num 2 true
  else if num <=? 0xFFFFFFFF then "fe" +:+ num2hexstring num 4 true
  else "ff" +:+ num2hexstring num 8 true.

(** Modelled from the spec: [hex2VarBytes] of [utils], the
    [writeLengthPrefixedBytes] of section 4.2. *)
Definition hex2VarBytes (hex : string) : string :=
  num2VarInt (N.of_nat (String.length hex / 2)) +:+ hex.

(** Modelled from the spec: [str2VarBytes] of [utils]: the string's bytes,
    length-prefixed (section 4.2). *)
Definition str2VarBytes (str : string) : string :=
  hex2VarBytes (str2hexstr str).

(** [str.substr(0, n)] *)
Definition substr0 (n : nat) (str : string) : string := String.substring 0 n str.

(** ** class StringReader (utils) *)

Module StringReader.

(** Modelled from the spec: the Stream Reader of sections 3 and 4.1 is
    not in the source at hand.  It owns a hex-digit sequence and a
    cursor counted in bytes. *)
Record t : Set := mk { str : string; pos : nat }.

(** Modelled from the spec: a reader is created per deserialization call,
    its cursor at the first byte. *)
Definition new (str : string) : t := mk str 0.

(** Modelled from the spec: [read(n)] consumes exactly [n] bytes ([2n]
    hex digits) and fails with [TruncatedInput] when fewer remain.
    Bytes that are not hex digits are refused here, once for all the
    typed reads. *)
Definition read (bytes : nat) : M t string :=
  fun sr =>
    if (pos sr + bytes <=? String.length (str sr) / 2)%nat then
      let out := String.substring (2 * pos sr) (2 * bytes) (str sr) in
      match parse_hex out with
      | Some _ => (Ok out, mk (str sr) (pos sr + bytes))
      | None => (Err Malformed, sr)
      end
    else (Err TruncatedInput, sr).

(** Modelled from the spec: [readUint(width)] consumes [width] bytes
    and decodes them as a little-endian unsigned integer. *)
Definition readUint (width : nat) : M t N :=
  out <- read width ;; ret (hex_value (rev_pairs out)).

(** Modelled from the spec: the [uint32] of section 4.5. *)
Definition readUint32 : M t N := readUint 4.

(** Modelled from the spec: the [uint32] of section 4.5, read by
    [readInt] for [view], [height], [index] and the leading count. *)
Definition readInt : M t N := readUint 4.

(** Modelled from the spec: the [uint64] of section 4.5. *)
Definition readLong : M t N := readUint 8.

(** Modelled from the spec: [readVarLength()] ([readNextLen] in the
    source): below [0xFD] the first byte is the length; [0xFD], [0xFE]
    and [0xFF] announce a 2-, 4- and 8-byte little-endian length. *)
Definition readNextLen : M t N :=
  fb <- readUint 1 ;;
  if fb =? 0xFD then readUint 2
  else if fb =? 0xFE then readUint 4
  else if fb =? 0xFF then readUint 8
  else ret fb.

(** Modelled from the spec: [readLengthPrefixedBytes()] ([readNextBytes]
    in the source): a [readVarLength()] count, then that many bytes. *)
Definition readNextBytes : M t string :=
  len <- readNextLen ;; read (N.to_nat len).

End StringReader.

(** ** class Address (crypto) *)

Module Address.

(** Modelled from the spec: an address is a fixed-width identifier of 20
    bytes, kept here as its 40 hex digits. *)
Record t : Set := mk { value : string }.

(** Modelled from the spec: an address is written raw, with no length
    prefix (sections 3 and 6). *)
Definition serialize (this : t) : string := value this.

(** Modelled from the spec: [readFixed(address_width)], a fixed run of 20
    bytes (section 4.1). *)
Definition deserialize : M StringReader.t t :=
  v <- StringReader.read 20 ;; ret (mk v).

End Address.

(** ** class Struct (abi) *)

(** A field of a struct: the builders add hex strings and numbers. *)
Inductive StructValue : Set :=
| VString (s : string)
| VNumber (n : Z).

(** Modelled from the spec: the [list] of a [Struct], its fields in the
    order of the [add] calls (section 4.4). *)
Definition Struct : Set := list StructValue.

(** Modelled from the spec: [new Struct()], a struct with no field. *)
Definition Struct_new : M Struct unit := fun _ => (Ok tt, []).

(** Modelled from the spec: [add(...values)] appends one or more values,
    preserving call order (section 4.4). *)
Definition Struct_add (values : list StructValue) : M Struct unit :=
  fun struct => (Ok tt, struct ++ values).

(** The struct as it stands, for [buildNativeCodeScript([struct])]. *)
Definition Struct_get : M Struct Struct := fun struct => (Ok struct, struct).

(** ** Collaborators *)

(** What the builders and queries call and this development leaves open:
    the script and transaction builders, the check of [initPos], the hex
    form of the contract address and the node's storage behind the REST
    client (section 6).  The script and transaction builders are taken as
    functions that return; what they may refuse is not modelled, so nothing
    below says that a builder never throws, only what it throws itself and
    what it hands over. *)
Class Collaborators : Type := {
  Transaction : Type;
  buildNativeCodeScript : list Struct -> string;
  makeNativeContractTx :
    string -> string -> Address.t -> string -> string -> Address.t -> Transaction;
  varifyPositiveInt : Z -> Result unit;
  toHexString : Address.t -> string;
  getStorage : option string -> string -> string -> option string
}.

Definition GOVERNANCE_CONTRACT : string := "0000000000000000000000000000000000000007".
Definition PEER_ATTRIBUTES : string := "peerAttributes".
Definition SPLIT_FEE_ADDRESS : string := "splitFeeAddress".
Definition AUTHORIZE_INFO_POOL : string := "authorizeInfoPool".
Definition contractAddress : Address.t := Address.mk GOVERNANCE_CONTRACT.

(** [array.length] as a JavaScript number. *)
Definition len {A : Type} (l : list A) : Z := Z.of_nat (length l).

(** A thrown value of a plain call, inside a computation. *)
Definition lift {S A : Type} (r : Result A) : M S A := fun s => (r, s).

(** ** Governance records *)

Module GovernanceView.

Record t : Set := mk { view : N; height : N; txhash : string }.

Definition deserialize : M StringReader.t t :=
  view <- StringReader.readInt ;;
  height <- StringReader.readInt ;;
  txhash <- StringReader.readNextBytes ;;
  ret (mk view height txhash).

Definition serialize (this : t) : string :=
  let result := "" in
  let result := result +:+ num2hexstring (view this) 4 true in
  let result := result +:+ num2hexstring (height this) 4 true in
  let result := result +:+ hex2VarBytes (txhash this) in
  result.

End GovernanceView.

Module PeerPoolItem.

Record t : Set := mk {
  index : N;
  peerPubkey : string;
  address : Address.t;
  status : N;
  initPos : N;
  totalPos : N
}.

Definition deserialize : M StringReader.t t :=
  index <- StringReader.readInt ;;
  peerPubkey <- StringReader.readNextBytes ;;
  address <- Address.deserialize ;;
  status <- StringReader.read 1 ;;
  initPos <- StringReader.readLong ;;
  totalPos <- StringReader.readLong ;;
  ret (mk index (hexstr2str peerPubkey) address (hex_value status)
          initPos totalPos).

Definition serialize (this : t) : string :=
  let result := "" in
  let result := result +:+ num2hexstring (index this) 4 true in
  let result := result +:+ str2VarBytes (peerPubkey this) in
  let result := result +:+ Address.serialize (address this) in
  let result := result +:+ num2hexstring (status this) 1 false in
  let result := result +:+ num2hexstring (initPos this) 8 true in
  let result := result +:+ num2hexstring (totalPos this) 8 true in
  result.

End PeerPoolItem.

Module PeerAttributes.

(** A field is [None] while it is [undefined]: [new PeerAttributes()]
    sets none of them. *)
Record t : Set := mk {
  peerPubkey : option string;
  ifAuthorize : option N;
  oldPeerCost : option N;
  newPeerCost : option N;
  setCostView : option N;
  field1 : option string;
  field2 : option string;
  field3 : option string;
  field4 : option string
}.

Definition new : t := mk None None None None None None None None None.

Definition deserialize : M StringReader.t t :=
  peerPubkey <- StringReader.readNextBytes ;;
  ifAuthorize <- StringReader.readNextLen ;;
  oldPeerCost <- StringReader.readLong ;;
  newPeerCost <- StringReader.readLong ;;
  setCostView <- StringReader.readUint32 ;;
  field1 <- StringReader.readNextBytes ;;
  field2 <- StringReader.readNextBytes ;;
  field3 <- StringReader.readNextBytes ;;
  field4 <- StringReader.readNextBytes ;;
  ret (mk (Some (hexstr2str peerPubkey)) (Some ifAuthorize)
          (Some oldPeerCost) (Some newPeerCost) (Some setCostView)
          (Some field1) (Some field2) (Some field3) (Some field4)).

Definition serialize (this : t) : string := "".

End PeerAttributes.

Module SplitFeeAddress.

Record t : Set := mk { address : option Address.t; amount : N }.

(** [amount: number = 0] *)
Definition new : t := mk None 0.

Definition deserialize : M StringReader.t t :=
  address <- Address.deserialize ;;
  amount <- StringReader.readLong ;;
  ret (mk (Some address) amount).

End SplitFeeAddress.

Module AuthorizeInfo.

Record t : Set := mk {
  peerPubkey : option string;
  address : option Address.t;
  consensusPos : option N;
  freezePos : option N;
  newPos : option N;
  withdrawPos : option N;
  withdrawFreezePos : option N;
  withdrawUnfreezePos : option N
}.

Definition new : t := mk None None None None None None None None.

Definition deserialize : M StringReader.t t :=
  peerPubkey <- StringReader.readNextBytes ;;
  address <- Address.deserialize ;;
  consensusPos <- StringReader.readLong ;;
  freezePos <- StringReader.readLong ;;
  newPos <- StringReader.readLong ;;
  withdrawPos <- StringReader.readLong ;;
  withdrawFreezePos <- StringReader.readLong ;;
  withdrawUnfreezePos <- StringReader.readLong ;;
  ret (mk (Some (hexstr2str peerPubkey)) (Some address)
          (Some consensusPos) (Some freezePos) (Some newPos)
          (Some withdrawPos) (Some withdrawFreezePos)
          (Some withdrawUnfreezePos)).

End AuthorizeInfo.

(** ** Plain objects used as maps *)

Module JsObject.

(** [const result: any = {}] and what the assignments make of it: the own
    properties of the object and, once an assignment to [__proto__] has
    replaced [Object.prototype], the entry that is its prototype. *)
Record t : Type := mk {
  own : gmap string PeerPoolItem.t;
  proto : option PeerPoolItem.t
}.

(** [{}] *)
Definition empty : t := mk ∅ None.

(** [result[key] = p], with [p] an object.  [__proto__] is the accessor
    that every plain object inherits from [Object.prototype]: assigning an
    object to it makes that object the prototype of [result] and creates no
    property.  Every other key becomes, or stays, an own property. *)
Definition set (result : t) (key : string) (p : PeerPoolItem.t) : t :=
  if String.eqb key "__proto__" then mk (own result) (Some p)
  else mk (<[key := p]> (own result)) (proto result).

End JsObject.

(** ** Transaction builders *)

(** The fields of a vote-style struct: the user's address, then the keys
    and the amounts, each list after its length. *)
Definition peers_fields (userAddr : Address.t) (peerPubKeys : list string)
    (posList : list Z) : Struct :=
  [VString (Address.serialize userAddr); VNumber (len peerPubKeys)]
  ++ map (fun p => VString (str2hexstr p)) peerPubKeys
  ++ [VNumber (len posList)]
  ++ map VNumber posList.

Section Builders.

Context `{node : Collaborators}.

(** Each builder runs over the struct it fills; the [console.log] calls of
    the source write nothing to it and are left out. *)

Definition makeRegisterCandidateTx (ontid peerPubKey : string) (keyNo : Z)
    (userAddr : Address.t) (initPos : Z) (payer : Address.t)
    (gasPrice gasLimit : string) : M Struct Transaction :=
  lift (varifyPositiveInt initPos) ;;
  let ontid :=
    if String.eqb (substr0 3 ontid) "did" then str2hexstr ontid else ontid in
  Struct_new ;;
  Struct_add [VString (str2hexstr peerPubKey);
              VString (Address.serialize userAddr);
              VNumber initPos; VString ontid; VNumber keyNo] ;;
  struct <- Struct_get ;;
  let params := buildNativeCodeScript [struct] in
  ret (makeNativeContractTx "registerCandidate" params contractAddress
         gasPrice gasLimit payer).

Definition makeVoteForPeerTx (userAddr : Address.t)
    (peerPubKeys : list string) (posList : list Z) (payer : Address.t)
    (gasPrice gasLimit : string) : M Struct Transaction :=
  if negb (len peerPubKeys =? len posList)%Z then throw INVALID_PARAMS
  else
    Struct_new ;;
    Struct_add [VString (Address.serialize userAddr)] ;;
    Struct_add [VNumber (len peerPubKeys)] ;;
    for_of peerPubKeys (fun p => Struct_add [VString (str2hexstr p)]) ;;
    Struct_add [VNumber (len posList)] ;;
    for_of posList (fun n => Struct_add [VNumber n]) ;;
    struct <- Struct_get ;;
    let params := buildNativeCodeScript [struct] in
    ret (makeNativeContractTx "voteForPeer" params contractAddress
           gasPrice gasLimit payer).

Definition makeUnvoteForPeerTx (userAddr : Address.t)
    (peerPubKeys : list string) (posList : list Z) (payer : Address.t)
    (gasPrice gasLimit : string) : M Struct Transaction :=
  if negb (len peerPubKeys =? len posList)%Z then throw INVALID_PARAMS
  else
    Struct_new ;;
    Struct_add [VString (Address.serialize userAddr)] ;;
    Struct_add [VNumber (len peerPubKeys)] ;;
    for_of peerPubKeys (fun p => Struct_add [VString (str2hexstr p)]) ;;
    Struct_add [VNumber (len posList)] ;;
    for_of posList (fun n => Struct_add [VNumber n]) ;;
    struct <- Struct_get ;;
    let params := buildNativeCodeScript [struct] in
    ret (makeNativeContractTx "unVoteForPeer" params contractAddress
           gasPrice gasLimit payer).

Definition makeWithdrawTx (userAddr : Address.t)
    (peerPubKeys : list string) (withdrawList : list Z) (payer : Address.t)
    (gasPrice gasLimit : string) : M Struct Transaction :=
  if negb (len peerPubKeys =? len withdrawList)%Z then throw INVALID_PARAMS
  else
    Struct_new ;;
    Struct_add [VString (Address.serialize userAddr)] ;;
    Struct_add [VNumber (len peerPubKeys)] ;;
    for_of peerPubKeys (fun p => Struct_add [VString (str2hexstr p)]) ;;
    Struct_add [VNumber (len withdrawList)] ;;
    for_of withdrawList (fun w => Struct_add [VNumber w]) ;;
    struct <- Struct_get ;;
    let params := buildNativeCodeScript [struct] in
    ret (makeNativeContractTx "withdraw" params contractAddress
           gasPrice gasLimit payer).

Definition makeAuthorizeForPeerTx (userAddr : Address.t)
    (peerPubKeyList : list string) (posList : list Z) (payer : Address.t)
    (gasPrice gasLimit : string) : M Struct Transaction :=
  Struct_new ;;
  Struct_add [VString (Address.serialize userAddr)] ;;
  Struct_add [VNumber (len peerPubKeyList)] ;;
  for_of peerPubKeyList (fun p => Struct_add [VString (str2hexstr p)]) ;;
  Struct_add [VNumber (len posList)] ;;
  for_of posList (fun w => Struct_add [VNumber w]) ;;
  struct <- Struct_get ;;
  let params := buildNativeCodeScript [struct] in
  ret (makeNativeContractTx "authorizeForPeer" params contractAddress
         gasPrice gasLimit payer).

Definition makeUnauthorizeForPeerTx (userAddr : Address.t)
    (peerPubKeyList : list string) (posList : list Z) (payer : Address.t)
    (gasPrice gasLimit : string) : M Struct Transaction :=
  Struct_new ;;
  Struct_add [VString (Address.serialize userAddr)] ;;
  Struct_add [VNumber (len peerPubKeyList)] ;;
  for_of peerPubKeyList (fun p => Struct_add [VString (str2hexstr p)]) ;;
  Struct_add [VNumber (len posList)] ;;
  for_of posList (fun w => Struct_add [VNumber w]) ;;
  struct <- Struct_get ;;
  let params := buildNativeCodeScript [struct] in
  ret (makeNativeContractTx "unAuthorizeForPeer" params contractAddress
         gasPrice gasLimit payer).

(** ** Storage queries *)

(** [if (result)] on a storage result: [null], [undefined] and the empty
    string are empty. *)
Definition truthy (result : option string) : bool :=
  match result with
  | Some (String _ _) => true
  | _ => false
  end.

(** The blob a reader is made over; an absent one reads as empty. *)
Definition blob (result : option string) : string :=
  match result with
  | Some s => s
  | None => ""
  end.

Definition getAttributes (peerPubKey : string) (url : option string)
    : Result PeerAttributes.t :=
  let codeHash := toHexString contractAddress in
  let key := str2hexstr PEER_ATTRIBUTES +:+ peerPubKey in
  let result := getStorage url codeHash key in
  if truthy result then
    eval PeerAttributes.deserialize (StringReader.new (blob result))
  else Ok PeerAttributes.new.

Definition getSplitFeeAddress (address : Address.t) (url : option string)
    : Result SplitFeeAddress.t :=
  let codeHash := toHexString contractAddress in
  let key := str2hexstr SPLIT_FEE_ADDRESS +:+ Address.serialize address in
  let result := getStorage url codeHash key in
  if truthy result then
    eval SplitFeeAddress.deserialize (StringReader.new (blob result))
  else Ok SplitFeeAddress.new.

Definition getAuthorizeInfo (peerPubKey : string) (address : Address.t)
    (url : option string) : Result AuthorizeInfo.t :=
  let codeHash := toHexString contractAddress in
  let key :=
    str2hexstr AUTHORIZE_INFO_POOL +:+ peerPubKey +:+ Address.serialize address in
  let result := getStorage url codeHash key in
  if truthy result then
    eval AuthorizeInfo.deserialize (StringReader.new (blob result))
  else Ok AuthorizeInfo.new.

(** [for (let i = 0; i < length; i++) { p = deserialize(sr); result[key] = p }] *)
Fixpoint peerPool_loop (count : nat) (result : JsObject.t)
    : M StringReader.t JsObject.t :=
  match count with
  | O => ret result
  | S count =>
      p <- PeerPoolItem.deserialize ;;
      peerPool_loop count (JsObject.set result (PeerPoolItem.peerPubkey p) p)
  end.

Definition getPeerPoolMap (url : option string) : Result JsObject.t :=
  let codeHash := toHexString contractAddress in
  let key := str2hexstr "governanceView" in
  let view := getStorage url codeHash key in
  let* governanceView :=
    eval GovernanceView.deserialize (StringReader.new (blob view)) in
  let key1 := str2hexstr "peerPool" in
  let key2 := num2hexstring (GovernanceView.view governanceView) 4 true in
  let keyP := key1 +:+ key2 in
  let res := getStorage url codeHash keyP in
  let sr := StringReader.new (blob res) in
  eval (length <- StringReader.readInt ;;
        peerPool_loop (N.to_nat length) JsObject.empty) sr.

End Builders.

(** ** The collection query in the specification's words (section 4.5) *)

(** [n] pool entries decoded one after the other. *)
Fixpoint decode_entries (n : nat) : M StringReader.t (list PeerPoolItem.t) :=
  match n with
  | O => ret []
  | S n =>
      p <- PeerPoolItem.deserialize ;;
      ps <- decode_entries n ;;
      ret (p :: ps)
  end.

(** The mapping keyed by peer identity; of two entries with one key the
    later one stays. *)
Definition entries_map (items : list PeerPoolItem.t) : gmap string PeerPoolItem.t :=
  list_to_map (reverse (map (fun p => (PeerPoolItem.peerPubkey p, p)) items)).

(** An entry put in a map under its key. *)
Definition pool_insert (m : gmap string PeerPoolItem.t) (p : PeerPoolItem.t)
    : gmap string PeerPoolItem.t :=
  <[PeerPoolItem.peerPubkey p := p]> m.

(** [result[p.peerPubkey] = p] *)
Definition object_insert (result : JsObject.t) (p : PeerPoolItem.t)
    : JsObject.t :=
  JsObject.set result (PeerPoolItem.peerPubkey p) p.

(** The key of the entry is an ordinary one. *)
Definition ordinary_key (p : PeerPoolItem.t) : Prop :=
  PeerPoolItem.peerPubkey p <> "__proto__".

(** The storage fetch returned an empty result. *)
Definition empty_result (result : option string) : Prop :=
  result = None \/ result = Some "".

(** ** A sample node *)

Definition alice : PeerPoolItem.t :=
  PeerPoolItem.mk 1 "abc" (Address.mk "0000000000000000000000000000000000000000")
    1 1000 2000.

Definition bob : PeerPoolItem.t :=
  PeerPoolItem.mk 2 "xyz" (Address.mk "00000000000000000000000000000000000000ff")
    2 30 500.

(** Storage holding view 2 and, under the pool key of that view, two
    entries; every other key is absent. *)
Definition sample_storage (key : string) : option string :=
  if String.eqb key (str2hexstr "governanceView") then
    Some (GovernanceView.serialize (GovernanceView.mk 2 5 ""))
  else if String.eqb key (str2hexstr "peerPool" +:+ num2hexstring 2 4 true) then
    Some (num2hexstring 2 4 true
          +:+ PeerPoolItem.serialize alice +:+ PeerPoolItem.serialize bob)
  else None.

(** An entry whose public key is the string [__proto__]. *)
Definition mallory : PeerPoolItem.t :=
  PeerPoolItem.mk 7 "__proto__"
    (Address.mk "00000000000000000000000000000000000000aa") 1 10 20.

(** Storage holding view 2 and a pool of two entries, the second one under
    the key [__proto__]. *)
Definition proto_storage (key : string) : option string :=
  if String.eqb key (str2hexstr "governanceView") then
    Some (GovernanceView.serialize (GovernanceView.mk 2 5 ""))
  else if String.eqb key (str2hexstr "peerPool" +:+ num2hexstring 2 4 true) then
    Some (num2hexstring 2 4 true
          +:+ PeerPoolItem.serialize alice +:+ PeerPoolItem.serialize mallory)
  else None.

(** Collaborators that keep their arguments, over [sample_storage]. *)
Definition sample_node : Collaborators := {|
  Transaction := string * string;
  buildNativeCodeScript := fun structs =>
    match structs with
    | [] => ""
    | _ :: _ => "struct"
    end;
  makeNativeContractTx := fun method params _ _ _ _ => (method, params);
  varifyPositiveInt := fun v =>
    if (0 <? v)%Z then Ok tt else Err INVALID_PARAMS;
  toHexString := fun a => Address.value a;
  getStorage := fun _ _ key => sample_storage key
|}.

(** The same collaborators over [proto_storage]. *)
Definition proto_node : Collaborators := {|
  Transaction := string * string;
  buildNativeCodeScript := fun structs =>
    match structs with
    | [] => ""
    | _ :: _ => "struct"
    end;
  makeNativeContractTx := fun method params _ _ _ _ => (method, params);
  varifyPositiveInt := fun v =>
    if (0 <? v)%Z then Ok tt else Err INVALID_PARAMS;
  toHexString := fun a => Address.value a;
  getStorage := fun _ _ key => proto_storage key
|}.

(** A peer-attributes blob: key [abc], flag 1, costs 3 and 4, view 2 and
    four empty reserved fields. *)
Definition sample_attributes : string :=
  str2VarBytes "abc" +:+ "01"
  +:+ num2hexstring 3 8 true +:+ num2hexstring 4 8 true
  +:+ num2hexstring 2 4 true +:+ "00" +:+ "00" +:+ "00" +:+ "00".


(** ** Readers over a part of a blob *)

(** Every character of [s] is a hex digit. *)
Definition is_hex (s : string) : Prop := parse_hex s <> None.

(** [m] decodes [a] from the bytes [hex] wherever they stand in a blob:
    started at their first byte it returns [a] and leaves the cursor on the
    byte after them, whatever comes before and after. *)
Definition reads {A : Type} (m : M StringReader.t A) (hex : string) (a : A)
    : Prop :=
  Nat.even (String.length hex) = true /\
  forall pre rest,
    Nat.even (String.length pre) = true ->
    m (StringReader.mk (pre +:+ hex +:+ rest) (String.length pre / 2))
    = (Ok a, StringReader.mk (pre +:+ hex +:+ rest)
               (String.length (pre +:+ hex) / 2)).

(** The blob of a pool: the entries one after the other. *)
Fixpoint serialize_entries (items : list PeerPoolItem.t) : string :=
  match items with
  | [] => ""
  | p :: items => PeerPoolItem.serialize p +:+ serialize_entries items
  end.

(** A pool entry whose fields fit their widths: a 4-byte index, a key of
    bytes, an address of 20 bytes in hex, a 1-byte status and two amounts
    that a JavaScript number holds exactly (below [2 ^ 53]). *)
Definition PeerPoolItem_fits (p : PeerPoolItem.t) : Prop :=
  PeerPoolItem.index p < 2 ^ 32 /\
  N.of_nat (String.length (PeerPoolItem.peerPubkey p)) < 2 ^ 64 /\
  String.length (Address.value (PeerPoolItem.address p)) = 40%nat /\
  is_hex (Address.value (PeerPoolItem.address p)) /\
  PeerPoolItem.status p < 256 /\
  PeerPoolItem.initPos p < 2 ^ 53 /\
  PeerPoolItem.totalPos p < 2 ^ 53.

(** A view record whose fields fit their widths. *)
Definition GovernanceView_fits (g : GovernanceView.t) : Prop :=
  GovernanceView.view g < 2 ^ 32 /\
  GovernanceView.height g < 2 ^ 32 /\
  Nat.even (String.length (GovernanceView.txhash g)) = true /\
  is_hex (GovernanceView.txhash g) /\
  N.of_nat (String.length (GovernanceView.txhash g) / 2) < 2 ^ 64.

(** Every field of the record is set. *)
Definition PeerAttributes_complete (pa : PeerAttributes.t) : Prop :=
  is_Some (PeerAttributes.peerPubkey pa) /\
  is_Some (PeerAttributes.ifAuthorize pa) /\
  is_Some (PeerAttributes.oldPeerCost pa) /\
  is_Some (PeerAttributes.newPeerCost pa) /\
  is_Some (PeerAttributes.setCostView pa) /\
  is_Some (PeerAttributes.field1 pa) /\
  is_Some (PeerAttributes.field2 pa) /\
  is_Some (PeerAttributes.field3 pa) /\
  is_Some (PeerAttributes.field4 pa).

Definition AuthorizeInfo_complete (ai : AuthorizeInfo.t) : Prop :=
  is_Some (AuthorizeInfo.peerPubkey ai) /\
  is_Some (AuthorizeInfo.address ai) /\
  is_Some (AuthorizeInfo.consensusPos ai) /\
  is_Some (AuthorizeInfo.freezePos ai) /\
  is_Some (AuthorizeInfo.newPos ai) /\
  is_Some (AuthorizeInfo.withdrawPos ai) /\
  is_Some (AuthorizeInfo.withdrawFreezePos ai) /\
  is_Some (AuthorizeInfo.withdrawUnfreezePos ai).

(** A node whose storage holds [sample_attributes] under every key. *)
Definition attributes_node : Collaborators := {|
  Transaction := string * string;
  buildNativeCodeScript := fun _ => "";
  makeNativeContractTx := fun method params _ _ _ _ => (method, params);
  varifyPositiveInt := fun _ => Ok tt;
  toHexString := fun a => Address.value a;
  getStorage := fun _ _ _ => Some sample_attributes
|}.

(** The entries whose key is not [__proto__], in their order. *)
Definition ordinary_entries (items : list PeerPoolItem.t)
    : list PeerPoolItem.t :=
  List.filter
    (fun p => negb (String.eqb (PeerPoolItem.peerPubkey p) "__proto__")) items.
Example toHexstr_255 : BigInt.toHexstr (BigInt.mk 255) = Ok "ff".
Proof. reflexivity. Qed.

Example toHexstr_4096 : BigInt.toHexstr (BigInt.mk 4096) = Ok "0010".
Proof. reflexivity. Qed.

Example toHexstr_0 : BigInt.toHexstr (BigInt.mk 0) = Ok "00".
Proof. reflexivity. Qed.

Example fromHexstr_0010 : BigInt.fromHexstr "0010" = Ok (BigInt.mk 4096).
Proof. reflexivity. Qed.

(** ** Strings of digits: append, length, pairs *)

Lemma app_String (a : ascii) (s t : string) :
  String a s +:+ t = String a (s +:+ t).
Proof. reflexivity. Qed.

Lemma app_empty_l (s : string) : "" +:+ s = s.
Proof. reflexivity. Qed.

Lemma app_empty_r (s : string) : s +:+ "" = s.
Proof. induction s as [|a s IH]; [reflexivity|]. now rewrite app_String, IH. Qed.

Lemma app_assoc_string (s t u : string) : (s +:+ t) +:+ u = s +:+ (t +:+ u).
Proof.
  induction s as [|a s IH]; [reflexivity|]. now rewrite !app_String, IH.
Qed.

Lemma length_app_string (s t : string) :
  String.length (s +:+ t) = (String.length s + String.length t)%nat.
Proof.
  induction s as [|a s IH]; [reflexivity|].
  rewrite app_String. simpl. now rewrite IH.
Qed.

(** Induction two digits at a time, for strings that are whole bytes. *)
Lemma even_string_ind (P : string -> Prop) :
  P "" ->
  (forall a b s, Nat.even (String.length s) = true -> P s ->
                 P (String a (String b s))) ->
  forall s, Nat.even (String.length s) = true -> P s.
Proof.
  intros H0 H2 s.
  enough (H : (Nat.even (String.length s) = true -> P s) /\
              (forall a, Nat.even (String.length (String a s)) = true ->
                         P (String a s))) by apply H.
  induction s as [|b s [IHe IHo]]; split.
  - intros _. exact H0.
  - intros a Ha. discriminate Ha.
  - apply IHo.
  - intros a Ha. apply H2; [exact Ha | apply IHe; exact Ha].
Qed.

Lemma rev_pairs_snoc (a b : ascii) (s : string) :
  Nat.even (String.length s) = true ->
  rev_pairs (s +:+ String a (String b "")) = String a (String b (rev_pairs s)).
Proof.
  revert s. apply even_string_ind; [reflexivity|].
  intros c d s _ IH. rewrite !app_String. simpl rev_pairs.
  rewrite IH. reflexivity.
Qed.

Lemma length_rev_pairs (s : string) :
  Nat.even (String.length s) = true ->
  String.length (rev_pairs s) = String.length s.
Proof.
  revert s. apply even_string_ind; [reflexivity|].
  intros a b s _ IH. simpl rev_pairs.
  rewrite length_app_string, IH. simpl. lia.
Qed.

Lemma rev_pairs_involutive (s : string) :
  Nat.even (String.length s) = true -> rev_pairs (rev_pairs s) = s.
Proof.
  revert s. apply even_string_ind; [reflexivity|].
  intros a b s Hs IH. simpl rev_pairs.
  rewrite rev_pairs_snoc, IH; [reflexivity|].
  now rewrite length_rev_pairs.
Qed.

Lemma reverseHex_even (s : string) :
  Nat.even (String.length s) = true -> reverseHex s = Ok (rev_pairs s).
Proof. intros H. unfold reverseHex. now rewrite H. Qed.

Lemma reverseHex_involutive (s : string) :
  Nat.even (String.length s) = true ->
  (let* r := reverseHex s in reverseHex r) = Ok s.
Proof.
  intros H. rewrite reverseHex_even by exact H. simpl.
  rewrite reverseHex_even by now rewrite length_rev_pairs.
  now rewrite rev_pairs_involutive.
Qed.

(** ** Digits and their values *)

Lemma digit_of_hex_digit (d : N) : d < 16 -> digit_of_hex (hex_digit d) = Some d.
Proof.
  intros H.
  assert (Hd : d = N.of_nat (N.to_nat d)) by now rewrite N2Nat.id.
  assert (Hn : (N.to_nat d < 16)%nat) by lia.
  rewrite Hd. generalize dependent (N.to_nat d). intros n _ Hn.
  do 16 (destruct n as [|n]; [reflexivity|]). lia.
Qed.

Lemma digit_of_hex_lt (c : ascii) (d : N) : digit_of_hex c = Some d -> d < 16.
Proof.
  unfold digit_of_hex. set (code := N_of_ascii c).
  repeat match goal with
         | |- context [if ?b then _ else _] => destruct b eqn:?
         end; intros H; try discriminate H; injection H as <-;
    repeat match goal with
           | E : (_ && _) = true |- _ => apply andb_true_iff in E; destruct E
           | E : (_ <=? _) = true |- _ => apply N.leb_le in E
           end; lia.
Qed.

Lemma parse_hex_from_app (acc : N) (s t : string) :
  parse_hex_from acc (s +:+ t) =
  match parse_hex_from acc s with
  | Some v => parse_hex_from v t
  | None => None
  end.
Proof.
  revert acc. induction s as [|c s IH]; intros acc; [reflexivity|].
  rewrite app_String. simpl. destruct (digit_of_hex c); [apply IH | reflexivity].
Qed.

Lemma parse_hex_digits (fuel : nat) (n : N) :
  n < 16 ^ N.of_nat fuel -> parse_hex (hex_digits fuel n) = Some n.
Proof.
  unfold parse_hex. revert n. induction fuel as [|f IH]; intros n Hn.
  - simpl in *. f_equal. lia.
  - simpl hex_digits. destruct (N.ltb_spec n 16) as [Hlt|Hge].
    + simpl. rewrite digit_of_hex_digit by exact Hlt. reflexivity.
    + rewrite parse_hex_from_app, IH.
      * simpl. rewrite digit_of_hex_digit by (apply N.mod_lt; lia).
        f_equal. pose proof (N.div_mod n 16). lia.
      * apply N.Div0.div_lt_upper_bound.
        rewrite Nat2N.inj_succ, N.pow_succ_r' in Hn. exact Hn.
Qed.

Lemma log2_fuel_bound (n : N) : n < 16 ^ N.of_nat (S (N.to_nat (N.log2 n))).
Proof.
  rewrite Nat2N.inj_succ, N2Nat.id.
  destruct n as [|p]; [reflexivity|].
  apply N.lt_le_trans with (2 ^ N.succ (N.log2 (Npos p))).
  - apply N.log2_spec. reflexivity.
  - apply N.pow_le_mono_l. lia.
Qed.

Lemma parse_toString16 (n : N) : parse_hex (toString16 n) = Some n.
Proof. apply parse_hex_digits, log2_fuel_bound. Qed.

(** A string of [k] digits denotes a number below [16 ^ k]. *)
Lemma parse_hex_from_lt (s : string) (acc v : N) :
  parse_hex_from acc s = Some v ->
  v < (acc + 1) * 16 ^ N.of_nat (String.length s).
Proof.
  revert acc. induction s as [|c s IH]; intros acc H.
  - injection H as <-. simpl. lia.
  - simpl in H. destruct (digit_of_hex c) as [d|] eqn:Hc; [|discriminate H].
    apply digit_of_hex_lt in Hc. apply IH in H.
    change (String.length (String c s)) with (S (String.length s)).
    rewrite Nat2N.inj_succ, N.pow_succ_r'.
    eapply N.lt_le_trans; [exact H|].
    rewrite (N.mul_comm 16), N.mul_assoc.
    apply N.mul_le_mono_r. lia.
Qed.

Lemma hex_digits_nonempty (f : nat) (n : N) :
  (1 <= String.length (hex_digits (S f) n))%nat.
Proof.
  simpl. destruct (n <? 16); [simpl; lia|].
  rewrite length_app_string. simpl. lia.
Qed.

(** The first digit printed is not a zero: a positive number printed on
    [k] digits is at least [16 ^ (k - 1)]. *)
Lemma hex_digits_lower (fuel : nat) (n : N) :
  n < 16 ^ N.of_nat fuel -> 0 < n ->
  16 ^ N.of_nat (String.length (hex_digits fuel n) - 1) <= n.
Proof.
  revert n. induction fuel as [|f IH]; intros n Hn Hpos.
  - simpl in Hn. lia.
  - simpl hex_digits. destruct (N.ltb_spec n 16) as [Hlt|Hge].
    + simpl. lia.
    + rewrite length_app_string. simpl String.length.
      replace (String.length (hex_digits f (n / 16)) + 1 - 1)%nat
        with (String.length (hex_digits f (n / 16))) by lia.
      assert (Hq : n / 16 < 16 ^ N.of_nat f).
      { apply N.Div0.div_lt_upper_bound.
        rewrite Nat2N.inj_succ, N.pow_succ_r' in Hn. exact Hn. }
      assert (Hq1 : 1 <= n / 16) by (apply N.div_le_lower_bound; lia).
      destruct f as [|f']; [simpl in Hq; lia|].
      pose proof (hex_digits_nonempty f' (n / 16)) as Hlen.
      specialize (IH (n / 16) Hq ltac:(lia)).
      remember (String.length (hex_digits (S f') (n / 16))) as len.
      replace (N.of_nat len) with (N.succ (N.of_nat (len - 1))) by lia.
      rewrite N.pow_succ_r'.
      pose proof (N.Div0.mul_div_le n 16). lia.
Qed.

Lemma join_app (l m : list string) : join (l ++ m) = join l +:+ join m.
Proof.
  induction l as [|x l IH]; [reflexivity|].
  simpl. rewrite IH. now rewrite app_assoc_string.
Qed.

Lemma rev_pairs_byte_reverse (s : string) : rev_pairs s = byte_reverse s.
Proof.
  enough (H : rev_pairs s = byte_reverse s /\
              forall a, rev_pairs (String a s) = byte_reverse (String a s))
    by apply H.
  induction s as [|b s [IHe IHo]]; split; try reflexivity.
  - apply IHo.
  - intros a. unfold byte_reverse. simpl. rewrite join_app. simpl.
    rewrite app_empty_r. f_equal. exact IHe.
Qed.

Lemma pad_even_length (h : string) : Nat.even (String.length (pad_even h)) = true.
Proof.
  unfold pad_even. destruct (Nat.even (String.length h)) eqn:He; [exact He|].
  rewrite app_String, app_empty_l.
  change (String.length (String "0" h)) with (S (String.length h)).
  rewrite Nat.even_succ, <- Nat.negb_even, He. reflexivity.
Qed.

Lemma parse_pad_even (h : string) : parse_hex (pad_even h) = parse_hex h.
Proof. unfold pad_even. destruct (Nat.even (String.length h)); reflexivity. Qed.

Lemma toString16_minimal (n : N) : minimal_hex (toString16 n) n.
Proof.
  split; [|split].
  - intros H. pose proof (hex_digits_nonempty (N.to_nat (N.log2 n)) n) as Hl.
    unfold toString16 in H. rewrite H in Hl. simpl in Hl. lia.
  - apply parse_toString16.
  - intros h' Hne Hp.
    pose proof (hex_digits_nonempty (N.to_nat (N.log2 n)) n) as Hl.
    fold (toString16 n) in Hl.
    destruct (N.eq_dec n 0) as [->|Hn].
    + destruct h'; [contradiction|]. simpl. lia.
    + pose proof (hex_digits_lower _ n (log2_fuel_bound n) ltac:(lia)) as Hlow.
      fold (toString16 n) in Hlow.
      apply parse_hex_from_lt in Hp. simpl in Hp. rewrite N.mul_1_l in Hp.
      assert (Hlt : 16 ^ N.of_nat (String.length (toString16 n) - 1)
                    < 16 ^ N.of_nat (String.length h')) by lia.
      apply N.pow_lt_mono_r_iff in Hlt; lia.
Qed.

(** ** The big-integer codec *)

Lemma even_mod2 (n : nat) : Nat.eqb (n mod 2) 0 = Nat.even n.
Proof.
  destruct (Nat.even n) eqn:He.
  - apply Nat.even_spec in He. destruct He as [k ->].
    rewrite Nat.mul_comm, Nat.Div0.mod_mul. reflexivity.
  - rewrite <- Nat.negb_odd in He. apply negb_false_iff, Nat.odd_spec in He.
    destruct He as [k ->].
    rewrite Nat.add_comm, Nat.mul_comm, Nat.Div0.mod_add. reflexivity.
Qed.

Lemma toHexstr_eq (b : BigInt.t) :
  BigInt.toHexstr b = Ok (rev_pairs (pad_even (toString16 (BigInt.value b)))).
Proof.
  unfold BigInt.toHexstr. rewrite even_mod2.
  rewrite <- (reverseHex_even _ (pad_even_length (toString16 (BigInt.value b)))).
  unfold pad_even. now destruct (Nat.even _).
Qed.

Lemma new_nonneg (z : Z) :
  (0 <= z)%Z -> BigInt.new (BN_of_Z z) = Ok (BigInt.mk (Z.to_N z)).
Proof.
  intros H. unfold BigInt.new, BN_of_Z. simpl.
  rewrite Z.mod_1_r, Z.div_1_r. simpl.
  destruct (Z.ltb_spec z 0); [lia | reflexivity].
Qed.

Lemma fromHexstr_rev_pairs (p : string) (m : N) :
  Nat.even (String.length p) = true -> parse_hex p = Some m ->
  BigInt.fromHexstr (rev_pairs p) = Ok (BigInt.mk m).
Proof.
  intros He Hp. unfold BigInt.fromHexstr.
  rewrite reverseHex_even by now rewrite length_rev_pairs.
  simpl. rewrite rev_pairs_involutive by exact He.
  unfold BigNumber_of_hex. rewrite Hp.
  rewrite new_nonneg by lia. now rewrite N2Z.id.
Qed.

(** ** Properties of the big-integer codec *)

Lemma isInteger_integral (v : BigNumber) : isInteger v = true <-> integral v.
Proof.
  destruct v as [| s | q |]; simpl;
    try (split; [discriminate | contradiction]); [|tauto].
  unfold Qeq. simpl. rewrite Z.eqb_eq. split.
  - intros H. exists (Qnum q / Zpos (Qden q))%Z.
    pose proof (Z.div_mod (Qnum q) (Zpos (Qden q)) ltac:(lia)). lia.
  - intros [z Hz]. rewrite Z.mul_1_r in Hz. rewrite Hz.
    apply Z.mod_mul. lia.
Qed.

Lemma isNegative_negative (v : BigNumber) :
  isNegative v = true <-> negative v \/ v = BN_NegZero.
Proof.
  destruct v as [| s | q |]; simpl.
  - split; [discriminate | intros [[]|H]; discriminate H].
  - split; [auto | intros [H|H]; [exact H | discriminate H]].
  - unfold Qlt. simpl. rewrite Z.ltb_lt. split.
    + intros H. left. lia.
    + intros [H|H]; [lia | discriminate H].
  - split; auto.
Qed.

(** C1: decoding the encoding of a non-negative integer gives it back, for
    every such integer (so in particular up to 2^64): [BigInt.fromHexstr]
    of the hex that [new BigInt(n).toHexstr()] returns is a [BigInt] whose
    value is [n]. *)
Theorem BigInt_roundtrip (n : Z) :
  (0 <= n)%Z ->
  (let* b := BigInt.new (BN_of_Z n) in
   let* hex := BigInt.toHexstr b in
   BigInt.fromHexstr hex) = Ok (BigInt.mk (Z.to_N n)).
Proof.
  intros Hn. rewrite new_nonneg by exact Hn. simpl bind.
  rewrite toHexstr_eq. simpl bind.
  apply fromHexstr_rev_pairs.
  - apply pad_even_length.
  - rewrite parse_pad_even. apply parse_toString16.
Qed.

Lemma BigInt_roundtrip_witness :
  (0 <= 2 ^ 64)%Z /\
  (let* b := BigInt.new (BN_of_Z (2 ^ 64)) in
   let* hex := BigInt.toHexstr b in
   BigInt.fromHexstr hex) = Ok (BigInt.mk (Z.to_N (2 ^ 64))).
Proof.
  split; [lia | apply (BigInt_roundtrip (2 ^ 64)); lia].
Defined.

(** C2, as the code has it: zero is encoded as the single zero byte [00],
    not as the empty sequence; the empty sequence and [00] both decode to
    zero. *)
Theorem BigInt_zero :
  (let* b := BigInt.new (BN_of_Z 0) in BigInt.toHexstr b) = Ok "00" /\
  BigInt.fromHexstr "" = Ok (BigInt.mk 0) /\
  BigInt.fromHexstr "00" = Ok (BigInt.mk 0).
Proof. repeat split. Qed.

(** C2 as stated fails: the encoding of zero is not the empty sequence. *)
Lemma BigInt_zero_not_empty :
  ~ ((let* b := BigInt.new (BN_of_Z 0) in BigInt.toHexstr b) = Ok "" /\
     BigInt.fromHexstr "" = Ok (BigInt.mk 0)).
Proof. intros [H _]. discriminate H. Qed.

(** C4, as the code has it: a value that is negative, the negative zero or
    non-integral is refused by the constructor with [INVALID_PARAMS] (the
    code the builders throw for mismatched arrays; nothing raises
    [InvalidValue]); an error that [new BigNumber(value)] itself throws
    comes out of the constructor as it is; every other non-negative integer
    is accepted and kept; and [toHexstr] returns a hex string on every
    constructed [BigInt]. *)
Theorem BigInt_construction {V : Type} (read : V -> Result BigNumber)
    (value : V) (b : BigInt.t) :
  (forall e, read value = Err e -> BigInt.construct read value = Err e) /\
  (forall bi, read value = Ok bi ->
     (negative bi \/ bi = BN_NegZero \/ ~ integral bi ->
      BigInt.construct read value = Err INVALID_PARAMS) /\
     (integral bi -> ~ negative bi -> bi <> BN_NegZero ->
      exists b', BigInt.construct read value = Ok b' /\
                 denotes bi (BigInt.value b'))) /\
  (exists hex, BigInt.toHexstr b = Ok hex).
Proof.
  split; [|split].
  - intros e He. unfold BigInt.construct. now rewrite He.
  - intros bi Hr. unfold BigInt.construct. rewrite Hr. cbn [bind]. split.
    + intros H.
      destruct (isInteger bi) eqn:Hi; [|reflexivity].
      destruct (isNegative bi) eqn:Hneg; [reflexivity|].
      exfalso. destruct H as [H|[H|H]].
      * assert (isNegative bi = true) by (apply isNegative_negative; auto).
        congruence.
      * assert (isNegative bi = true) by (apply isNegative_negative; auto).
        congruence.
      * apply H, isInteger_integral, Hi.
    + intros Hi Hneg Hz.
      apply isInteger_integral in Hi. rewrite Hi.
      destruct (isNegative bi) eqn:Hn.
      * exfalso. apply isNegative_negative in Hn. tauto.
      * simpl. eexists. split; [reflexivity|].
        destruct bi as [| s | q |]; try discriminate Hi; [|contradiction].
        simpl in *. apply Z.eqb_eq in Hi. apply Z.ltb_ge in Hn.
        unfold Qeq. simpl. rewrite Z.mul_1_r.
        assert (Hq : (0 <= Qnum q / Z.pos (Qden q))%Z)
          by (apply Z.div_pos; lia).
        rewrite Z2N.id by exact Hq.
        pose proof (Z.div_mod (Qnum q) (Z.pos (Qden q)) ltac:(lia)). lia.
  - rewrite toHexstr_eq. eauto.
Qed.

Lemma BigInt_construction_witness :
  BigInt.construct read_debug BN_NaN = Err BigNumberError /\
  BigInt.construct read_exact (BN_of_Z (-1)) = Err INVALID_PARAMS /\
  BigInt.construct read_exact BN_NegZero = Err INVALID_PARAMS /\
  BigInt.construct read_exact (BN_Finite (1 # 2)) = Err INVALID_PARAMS /\
  (exists b', BigInt.construct read_exact (BN_of_Z 7) = Ok b' /\
              denotes (BN_of_Z 7) (BigInt.value b')) /\
  (exists hex, BigInt.toHexstr (BigInt.mk 7) = Ok hex).
Proof.
  split; [|split; [|split; [|split; [|split]]]].
  - apply (BigInt_construction read_debug BN_NaN (BigInt.mk 7)).
    reflexivity.
  - apply (BigInt_construction read_exact (BN_of_Z (-1)) (BigInt.mk 7))
      with (bi := BN_of_Z (-1)); [reflexivity|].
    left. reflexivity.
  - apply (BigInt_construction read_exact BN_NegZero (BigInt.mk 7))
      with (bi := BN_NegZero); [reflexivity|].
    right. left. reflexivity.
  - apply (BigInt_construction read_exact (BN_Finite (1 # 2)) (BigInt.mk 7))
      with (bi := BN_Finite (1 # 2)); [reflexivity|].
    right. right. intros [z Hz]. unfold Qeq in Hz. simpl in Hz. lia.
  - apply (BigInt_construction read_exact (BN_of_Z 7) (BigInt.mk 7))
      with (bi := BN_of_Z 7); [reflexivity| | |].
    + exists 7%Z. reflexivity.
    + intros H. discriminate H.
    + discriminate.
  - apply (BigInt_construction read_exact (BN_of_Z 7) (BigInt.mk 7)).
Defined.

(** C4 as stated fails twice: on a negative value the constructor raises
    [INVALID_PARAMS], not [InvalidValue]; and the negative zero, which is
    the integer 0 and is not below zero, is refused instead of accepted. *)
Lemma BigInt_construction_not_InvalidValue :
  (negative (BN_of_Z (-1)) /\
   BigInt.construct read_exact (BN_of_Z (-1)) = Err INVALID_PARAMS /\
   BigInt.construct read_exact (BN_of_Z (-1)) <> Err InvalidValue) /\
  (integral BN_NegZero /\ ~ negative BN_NegZero /\ denotes BN_NegZero 0 /\
   BigInt.construct read_exact BN_NegZero = Err INVALID_PARAMS).
Proof.
  split.
  - split; [reflexivity | split; [reflexivity | discriminate]].
  - split; [exact I | split; [intros [] | split; reflexivity]].
Qed.

(** C5: [toHexstr] returns the value's shortest big-endian base-16 digit
    string, zero-padded to an even number of digits, with its bytes in the
    opposite order; [fromHexstr] puts the bytes back in big-endian order and
    reads the digits in base sixteen. *)
Theorem BigInt_encoding_rule (b : BigInt.t) (hex : string) (n : N) :
  Nat.even (String.length hex) = true ->
  parse_hex (byte_reverse hex) = Some n ->
  (exists h, minimal_hex h (BigInt.value b) /\
             BigInt.toHexstr b = Ok (byte_reverse (pad_even h))) /\
  BigInt.fromHexstr hex = Ok (BigInt.mk n).
Proof.
  intros He Hp. split.
  - exists (toString16 (BigInt.value b)). split.
    + apply toString16_minimal.
    + rewrite toHexstr_eq. now rewrite rev_pairs_byte_reverse.
  - rewrite <- rev_pairs_byte_reverse in Hp.
    rewrite <- (rev_pairs_involutive hex He).
    apply fromHexstr_rev_pairs; [|exact Hp].
    now rewrite length_rev_pairs.
Qed.

Lemma BigInt_encoding_rule_witness :
  (exists h, minimal_hex h 4096 /\
             BigInt.toHexstr (BigInt.mk 4096) = Ok (byte_reverse (pad_even h))) /\
  BigInt.fromHexstr "e803" = Ok (BigInt.mk 1000).
Proof.
  apply (BigInt_encoding_rule (BigInt.mk 4096) "e803" 1000); reflexivity.
Defined.

(** ** Properties of the transaction builders *)

Lemma for_of_add {A : Type} (f : A -> StructValue) (xs : list A) (s : Struct) :
  for_of xs (fun x => Struct_add [f x]) s = (Ok tt, s ++ map f xs).
Proof.
  revert s. induction xs as [|x xs IH]; intros s; simpl.
  - unfold ret. now rewrite app_nil_r.
  - unfold bindM, Struct_add at 1. rewrite IH.
    now rewrite <- app_assoc.
Qed.

Ltac run_builder :=
  cbv beta delta [bindM Struct_new Struct_get ret throw lift] iota;
  unfold Struct_add at 1 2; cbv beta iota;
  rewrite for_of_add; unfold Struct_add at 1; cbv beta iota;
  rewrite for_of_add; cbv beta iota.

Section BuilderFacts.

Context `{node : Collaborators}.

(** The three guarded builders throw before a struct is made. *)
Lemma guarded_reject (userAddr payer : Address.t) (keys : list string)
    (pos : list Z) (gasPrice gasLimit : string) (s0 : Struct) :
  length keys <> length pos ->
  makeVoteForPeerTx userAddr keys pos payer gasPrice gasLimit s0
    = (Err INVALID_PARAMS, s0) /\
  makeUnvoteForPeerTx userAddr keys pos payer gasPrice gasLimit s0
    = (Err INVALID_PARAMS, s0) /\
  makeWithdrawTx userAddr keys pos payer gasPrice gasLimit s0
    = (Err INVALID_PARAMS, s0).
Proof.
  intros Hne.
  assert (Hb : (len keys =? len pos)%Z = false)
    by (apply Z.eqb_neq; unfold len; lia).
  unfold makeVoteForPeerTx, makeUnvoteForPeerTx, makeWithdrawTx.
  rewrite Hb. simpl. auto.
Qed.

(** The two builders without the guard write the struct whatever the
    lengths are. *)
Lemma unguarded_accept (userAddr payer : Address.t) (keys : list string)
    (pos : list Z) (gasPrice gasLimit : string) (s0 : Struct) :
  makeAuthorizeForPeerTx userAddr keys pos payer gasPrice gasLimit s0
    = (Ok (makeNativeContractTx "authorizeForPeer"
             (buildNativeCodeScript [peers_fields userAddr keys pos])
             contractAddress gasPrice gasLimit payer),
       peers_fields userAddr keys pos) /\
  makeUnauthorizeForPeerTx userAddr keys pos payer gasPrice gasLimit s0
    = (Ok (makeNativeContractTx "unAuthorizeForPeer"
             (buildNativeCodeScript [peers_fields userAddr keys pos])
             contractAddress gasPrice gasLimit payer),
       peers_fields userAddr keys pos).
Proof.
  unfold makeAuthorizeForPeerTx, makeUnauthorizeForPeerTx, peers_fields.
  split; run_builder; simpl; rewrite <- ?app_assoc; reflexivity.
Qed.

End BuilderFacts.

(** C3 at the failing input: with three keys and two amounts,
    [makeAuthorizeForPeerTx] and [makeUnauthorizeForPeerTx] do not throw
    [INVALID_PARAMS]; they write all eight fields of the struct and return
    a transaction, where [makeVoteForPeerTx], [makeUnvoteForPeerTx] and
    [makeWithdrawTx] throw with nothing written. *)
Theorem authorize_accepts_mismatched_lists `{node : Collaborators}
    (userAddr payer : Address.t) (gasPrice gasLimit : string) :
  let keys := ["a"; "b"; "c"] in
  let pos := [1; 2]%Z in
  length keys <> length pos /\
  (exists tx,
     makeAuthorizeForPeerTx userAddr keys pos payer gasPrice gasLimit []
     = (Ok tx, peers_fields userAddr keys pos)) /\
  (exists tx,
     makeUnauthorizeForPeerTx userAddr keys pos payer gasPrice gasLimit []
     = (Ok tx, peers_fields userAddr keys pos)) /\
  length (peers_fields userAddr keys pos) = 8%nat /\
  makeVoteForPeerTx userAddr keys pos payer gasPrice gasLimit []
    = (Err INVALID_PARAMS, []) /\
  makeUnvoteForPeerTx userAddr keys pos payer gasPrice gasLimit []
    = (Err INVALID_PARAMS, []) /\
  makeWithdrawTx userAddr keys pos payer gasPrice gasLimit []
    = (Err INVALID_PARAMS, []).
Proof.
  intros keys pos.
  destruct (unguarded_accept userAddr payer keys pos gasPrice gasLimit [])
    as [Ha Hu].
  split; [discriminate|].
  split; [eexists; exact Ha|].
  split; [eexists; exact Hu|].
  split; [reflexivity|].
  apply guarded_reject. discriminate.
Qed.

(** C10: [makeRegisterCandidateTx] adds the hex of [ontid] to the struct
    when the first three characters of [ontid] are [did], and [ontid]
    itself in every other case; it is the fourth of the five fields. *)
Theorem registerCandidate_ontid `{node : Collaborators}
    (ontid peerPubKey : string) (keyNo : Z) (userAddr : Address.t)
    (initPos : Z) (payer : Address.t) (gasPrice gasLimit : string)
    (s0 : Struct) :
  varifyPositiveInt initPos = Ok tt ->
  let fields (o : string) :=
    [VString (str2hexstr peerPubKey); VString (Address.serialize userAddr);
     VNumber initPos; VString o; VNumber keyNo] in
  let struct :=
    snd (makeRegisterCandidateTx ontid peerPubKey keyNo userAddr initPos
           payer gasPrice gasLimit s0) in
  (substr0 3 ontid = "did" -> struct = fields (str2hexstr ontid)) /\
  (substr0 3 ontid <> "did" -> struct = fields ontid).
Proof.
  intros Hv fields struct. subst struct fields.
  unfold makeRegisterCandidateTx.
  cbv beta delta [bindM Struct_new Struct_get Struct_add ret lift] iota.
  rewrite Hv. cbv beta iota. simpl snd.
  split; intros Hd.
  - rewrite Hd. reflexivity.
  - apply String.eqb_neq in Hd. rewrite Hd. reflexivity.
Qed.

Lemma registerCandidate_ontid_witness :
  varifyPositiveInt (Collaborators := sample_node) 1000 = Ok tt /\
  (substr0 3 "did:ont:A" = "did" ->
   snd (makeRegisterCandidateTx (node := sample_node) "did:ont:A" "abc" 1
          (Address.mk GOVERNANCE_CONTRACT) 1000 (Address.mk GOVERNANCE_CONTRACT)
          "500" "20000" [])
   = [VString "616263"; VString GOVERNANCE_CONTRACT; VNumber 1000;
      VString "6469643a6f6e743a41"; VNumber 1]) /\
  (substr0 3 "ab" <> "did" ->
   snd (makeRegisterCandidateTx (node := sample_node) "ab" "abc" 1
          (Address.mk GOVERNANCE_CONTRACT) 1000 (Address.mk GOVERNANCE_CONTRACT)
          "500" "20000" [])
   = [VString "616263"; VString GOVERNANCE_CONTRACT; VNumber 1000;
      VString "ab"; VNumber 1]).
Proof.
  split; [reflexivity|]. split.
  - apply (registerCandidate_ontid (node := sample_node) "did:ont:A" "abc" 1
             (Address.mk GOVERNANCE_CONTRACT) 1000
             (Address.mk GOVERNANCE_CONTRACT) "500" "20000" []).
    reflexivity.
  - apply (registerCandidate_ontid (node := sample_node) "ab" "abc" 1
             (Address.mk GOVERNANCE_CONTRACT) 1000
             (Address.mk GOVERNANCE_CONTRACT) "500" "20000" []).
    reflexivity.
Defined.

(** ** Properties of the record codecs and storage queries *)

(** C6: the peer-pool entry [{index: 1, peerPubKey: "abc", address: 20 zero
    bytes, status: 1, initPos: 1000, totalPos: 2000}] is serialized to 45
    bytes of hex, and [PeerPoolItem.deserialize] over that hex returns the
    same record, field for field. *)
Theorem PeerPoolItem_scenario :
  let item :=
    PeerPoolItem.mk 1 "abc"
      (Address.mk "0000000000000000000000000000000000000000") 1 1000 2000 in
  let hex := PeerPoolItem.serialize item in
  hex = "0100000003616263000000000000000000000000000000000000000001e803000000000000d007000000000000"
  /\ exists p,
      eval PeerPoolItem.deserialize (StringReader.new hex) = Ok p /\
      PeerPoolItem.index p = PeerPoolItem.index item /\
      PeerPoolItem.peerPubkey p = PeerPoolItem.peerPubkey item /\
      PeerPoolItem.address p = PeerPoolItem.address item /\
      PeerPoolItem.status p = PeerPoolItem.status item /\
      PeerPoolItem.initPos p = PeerPoolItem.initPos item /\
      PeerPoolItem.totalPos p = PeerPoolItem.totalPos item /\
      p = item.
Proof.
  intros item hex. split; [reflexivity|].
  exists item. repeat split.
Qed.

Section QueryFacts.

Context `{node : Collaborators}.

Lemma peerPool_loop_decode (n : nat) :
  forall acc sr items sr',
    decode_entries n sr = (Ok items, sr') ->
    peerPool_loop n acc sr = (Ok (foldl object_insert acc items), sr') /\
    length items = n.
Proof.
  induction n as [|n IH]; intros acc sr items sr' Hd; simpl in *.
  - unfold ret in *. injection Hd as <- <-. auto.
  - unfold bindM in *.
    destruct (PeerPoolItem.deserialize sr) as [[p|e] sr1]; [|discriminate Hd].
    destruct (decode_entries n sr1) as [[ps|e] sr2] eqn:Hps;
      [|discriminate Hd].
    unfold ret in Hd. injection Hd as <- <-.
    destruct (IH (object_insert acc p) sr1 ps sr2 Hps) as [Hl Hlen].
    split; [exact Hl | simpl; now rewrite Hlen].
Qed.

Lemma foldl_pool_insert (items : list PeerPoolItem.t) :
  forall acc, foldl pool_insert acc items = entries_map items ∪ acc.
Proof.
  unfold entries_map.
  induction items as [|p items IH]; intros acc; simpl.
  - now rewrite (left_id_L ∅ (∪)).
  - rewrite IH, reverse_cons, list_to_map_app. simpl.
    rewrite <- (assoc_L (∪)). f_equal.
    unfold pool_insert. rewrite insert_union_singleton_l.
    now rewrite insert_empty.
Qed.

Lemma entries_map_lookup (items : list PeerPoolItem.t) (k : string)
    (p : PeerPoolItem.t) :
  entries_map items !! k = Some p -> p ∈ items /\ PeerPoolItem.peerPubkey p = k.
Proof.
  unfold entries_map. intros Hl.
  apply elem_of_list_to_map_2, elem_of_reverse, list_elem_of_fmap in Hl.
  destruct Hl as [q [Heq Hq]]. injection Heq as -> ->. auto.
Qed.

Lemma entries_map_keys (items : list PeerPoolItem.t) (p : PeerPoolItem.t) :
  p ∈ items -> is_Some (entries_map items !! PeerPoolItem.peerPubkey p).
Proof.
  intros Hp. unfold entries_map.
  destruct (list_to_map _ !! _) as [q|] eqn:Hl; [eauto|].
  apply not_elem_of_list_to_map in Hl. exfalso. apply Hl.
  rewrite fmap_reverse, elem_of_reverse, <- list_fmap_compose.
  apply list_elem_of_fmap. exists p. auto.
Qed.

End QueryFacts.


Lemma truthy_empty_result (result : option string) :
  empty_result result -> truthy result = false.
Proof. intros [-> | ->]; reflexivity. Qed.

(** C8: when the storage fetch returns an empty result, [getAttributes],
    [getSplitFeeAddress] and [getAuthorizeInfo] return a freshly constructed
    [PeerAttributes], [SplitFeeAddress] and [AuthorizeInfo], and decode
    nothing. *)
Theorem absent_record_default `{node : Collaborators} (peerPubKey : string)
    (address : Address.t) (url : option string) :
  let codeHash := toHexString contractAddress in
  (empty_result
     (getStorage url codeHash (str2hexstr PEER_ATTRIBUTES +:+ peerPubKey)) ->
   getAttributes peerPubKey url = Ok PeerAttributes.new) /\
  (empty_result
     (getStorage url codeHash
        (str2hexstr SPLIT_FEE_ADDRESS +:+ Address.serialize address)) ->
   getSplitFeeAddress address url = Ok SplitFeeAddress.new) /\
  (empty_result
     (getStorage url codeHash
        (str2hexstr AUTHORIZE_INFO_POOL +:+ peerPubKey
         +:+ Address.serialize address)) ->
   getAuthorizeInfo peerPubKey address url = Ok AuthorizeInfo.new).
Proof.
  intros codeHash. repeat split; intros He; apply truthy_empty_result in He.
  - unfold getAttributes. fold codeHash. now rewrite He.
  - unfold getSplitFeeAddress. fold codeHash. now rewrite He.
  - unfold getAuthorizeInfo. fold codeHash. now rewrite He.
Qed.

Lemma absent_record_default_witness :
  getAttributes (node := sample_node) "abc" None = Ok PeerAttributes.new /\
  getSplitFeeAddress (node := sample_node) contractAddress None
    = Ok SplitFeeAddress.new /\
  getAuthorizeInfo (node := sample_node) "abc" contractAddress None
    = Ok AuthorizeInfo.new.
Proof.
  destruct (absent_record_default (node := sample_node) "abc" contractAddress None)
    as [Ha [Hs Hi]].
  split; [|split].
  - apply Ha. left. reflexivity.
  - apply Hs. left. reflexivity.
  - apply Hi. left. reflexivity.
Defined.

(** C9: [serialize()] of a [PeerAttributes] is the empty string whatever
    the instance; it does not give back the blob the instance was decoded
    from, and decoding what it returns fails. *)
Theorem PeerAttributes_serialize_empty (hex : string) (this : PeerAttributes.t)
    (sr : StringReader.t) :
  PeerAttributes.deserialize (StringReader.new hex) = (Ok this, sr) ->
  (forall pa, PeerAttributes.serialize pa = "") /\
  PeerAttributes.serialize this <> hex /\
  eval PeerAttributes.deserialize
    (StringReader.new (PeerAttributes.serialize this)) = Err TruncatedInput.
Proof.
  intros Hd. split; [reflexivity|]. split; [|reflexivity].
  intros <-. discriminate Hd.
Qed.

Lemma PeerAttributes_serialize_empty_witness :
  (forall pa, PeerAttributes.serialize pa = "") /\
  PeerAttributes.serialize
    (PeerAttributes.mk (Some "abc") (Some 1) (Some 3) (Some 4) (Some 2)
       (Some "") (Some "") (Some "") (Some "")) <> sample_attributes /\
  eval PeerAttributes.deserialize
    (StringReader.new
       (PeerAttributes.serialize
          (PeerAttributes.mk (Some "abc") (Some 1) (Some 3) (Some 4) (Some 2)
             (Some "") (Some "") (Some "") (Some "")))) = Err TruncatedInput.
Proof.
  apply (PeerAttributes_serialize_empty sample_attributes
           (PeerAttributes.mk (Some "abc") (Some 1) (Some 3) (Some 4) (Some 2)
              (Some "") (Some "") (Some "") (Some ""))
           (StringReader.mk sample_attributes 29)).
  reflexivity.
Defined.

(** ** Substrings and halves *)

Lemma even_half (n : nat) :
  Nat.even n = true -> exists k, n = (2 * k)%nat /\ (n / 2 = k)%nat.
Proof.
  intros He. apply Nat.even_spec in He. destruct He as [k ->].
  exists k. split; [reflexivity|]. rewrite Nat.mul_comm. apply Nat.div_mul. lia.
Qed.

Lemma even_double (k : nat) : Nat.even (2 * k) = true.
Proof. apply Nat.even_spec. now exists k. Qed.

Lemma even_length_app (s t : string) :
  Nat.even (String.length s) = true -> Nat.even (String.length t) = true ->
  Nat.even (String.length (s +:+ t)) = true.
Proof.
  intros Hs Ht. rewrite length_app_string, Nat.even_add, Hs, Ht. reflexivity.
Qed.

Lemma substring_0_app (s rest : string) :
  String.substring 0 (String.length s) (s +:+ rest) = s.
Proof.
  induction s as [|a s IH].
  - destruct rest; reflexivity.
  - rewrite app_String. simpl. now rewrite IH.
Qed.

Lemma substring_skip_app (pre t : string) (m : nat) :
  String.substring (String.length pre) m (pre +:+ t) = String.substring 0 m t.
Proof.
  induction pre as [|a pre IH]; [reflexivity|].
  rewrite app_String. simpl. exact IH.
Qed.

(** ** Hex strings *)

Lemma parse_hex_from_acc (s : string) (acc acc' : N) :
  parse_hex_from acc s = None -> parse_hex_from acc' s = None.
Proof.
  revert acc acc'. induction s as [|c s IH]; intros acc acc' H; simpl in *.
  - discriminate H.
  - destruct (digit_of_hex c); [eapply IH, H | reflexivity].
Qed.

Lemma is_hex_app (s t : string) : is_hex (s +:+ t) <-> is_hex s /\ is_hex t.
Proof.
  unfold is_hex, parse_hex. rewrite parse_hex_from_app. split.
  - intros H. destruct (parse_hex_from 0 s) as [v|] eqn:Hs; [|contradiction].
    split; [discriminate|]. intros Ht. apply H.
    now apply parse_hex_from_acc with (acc := 0).
  - intros [Hs Ht]. destruct (parse_hex_from 0 s) as [v|]; [|contradiction].
    intros H. apply Ht. now apply parse_hex_from_acc with (acc := v).
Qed.

Lemma is_hex_empty : is_hex "".
Proof. discriminate. Qed.

Lemma hex_digit_is_digit (d : N) : digit_of_hex (hex_digit (d mod 16)) = Some (d mod 16).
Proof. apply digit_of_hex_digit, N.mod_lt. discriminate. Qed.

Lemma parse_byte_hex (acc n : N) :
  parse_hex_from acc (byte_hex n) = Some (256 * acc + n mod 256).
Proof.
  unfold byte_hex. simpl. rewrite !hex_digit_is_digit. f_equal.
  assert (H : n mod 256 = 16 * (n / 16 mod 16) + n mod 16).
  { replace 256 with (16 * 16) by reflexivity.
    rewrite N.Div0.mod_mul_r. lia. }
  lia.
Qed.

Lemma is_hex_byte_hex (n : N) : is_hex (byte_hex n).
Proof. unfold is_hex, parse_hex. now rewrite parse_byte_hex. Qed.

Lemma length_byte_hex (n : N) : String.length (byte_hex n) = 2%nat.
Proof. reflexivity. Qed.

(** ** Fixed-width integers *)

Lemma length_uint_le (size : nat) (num : N) :
  String.length (uint_le size num) = (2 * size)%nat.
Proof.
  revert num. induction size as [|k IH]; intros num; [reflexivity|].
  simpl uint_le. rewrite length_app_string, IH. simpl. lia.
Qed.

Lemma length_uint_be (size : nat) (num : N) :
  String.length (uint_be size num) = (2 * size)%nat.
Proof.
  revert num. induction size as [|k IH]; intros num; [reflexivity|].
  simpl uint_be. rewrite length_app_string, IH. simpl. lia.
Qed.

Lemma rev_pairs_uint_le (size : nat) (num : N) :
  rev_pairs (uint_le size num) = uint_be size num.
Proof.
  revert num. induction size as [|k IH]; intros num; [reflexivity|].
  simpl uint_le. simpl uint_be. unfold byte_hex at 1.
  rewrite !app_String, app_empty_l. simpl rev_pairs. now rewrite IH.
Qed.

Lemma parse_uint_be (size : nat) (num acc : N) :
  parse_hex_from acc (uint_be size num)
  = Some (256 ^ N.of_nat size * acc + num mod 256 ^ N.of_nat size).
Proof.
  revert num acc. induction size as [|k IH]; intros num acc.
  - simpl. f_equal. rewrite N.mod_1_r. lia.
  - simpl uint_be. rewrite parse_hex_from_app, IH, parse_byte_hex. f_equal.
    rewrite Nat2N.inj_succ, N.pow_succ_r'.
    rewrite (N.Div0.mod_mul_r num 256 (256 ^ N.of_nat k)), N.Div0.mod_mod.
    generalize (256 ^ N.of_nat k), ((num / 256) mod 256 ^ N.of_nat k),
      (num mod 256). intros P X Y. ring.
Qed.

Lemma is_hex_uint_le (size : nat) (num : N) : is_hex (uint_le size num).
Proof.
  revert num. induction size as [|k IH]; intros num; [apply is_hex_empty|].
  simpl uint_le. apply is_hex_app. split; [apply is_hex_byte_hex | apply IH].
Qed.

Lemma hex_value_uint (size : nat) (num : N) :
  num < 256 ^ N.of_nat size ->
  hex_value (rev_pairs (uint_le size num)) = num.
Proof.
  intros H. unfold hex_value, parse_hex.
  rewrite rev_pairs_uint_le, parse_uint_be, N.mod_small by exact H. lia.
Qed.

(** ** Reading what was written *)

Lemma reads_ret {A : Type} (a : A) : reads (ret a) "" a.
Proof.
  split; [reflexivity|]. intros pre rest _.
  unfold ret. rewrite app_empty_l, app_empty_r. reflexivity.
Qed.

Lemma reads_bind {A B : Type} (m : M StringReader.t A)
    (k : A -> M StringReader.t B) (h1 h2 : string) (a : A) (b : B) :
  reads m h1 a -> reads (k a) h2 b -> reads (bindM m k) (h1 +:+ h2) b.
Proof.
  intros [He1 H1] [He2 H2]. split; [now apply even_length_app|].
  intros pre rest Hpre. unfold bindM.
  rewrite (app_assoc_string h1 h2 rest), (H1 pre (h2 +:+ rest) Hpre).
  rewrite <- (app_assoc_string pre h1 (h2 +:+ rest)).
  rewrite (H2 (pre +:+ h1) rest (even_length_app _ _ Hpre He1)).
  rewrite <- (app_assoc_string pre h1 h2).
  rewrite !app_assoc_string. reflexivity.
Qed.

Lemma reads_read (n : nat) (s : string) :
  String.length s = (2 * n)%nat -> is_hex s -> reads (StringReader.read n) s s.
Proof.
  intros Hlen Hhex. split; [rewrite Hlen; apply even_double|].
  intros pre rest Hpre.
  destruct (even_half _ Hpre) as [p [Hp Hhalf]].
  unfold StringReader.read. cbn [StringReader.pos StringReader.str].
  rewrite Hhalf.
  assert (Hle : (p + n <=? String.length (pre +:+ s +:+ rest) / 2)%nat = true).
  { apply Nat.leb_le. rewrite !length_app_string, Hlen, Hp.
    apply Nat.div_le_lower_bound; lia. }
  rewrite Hle.
  replace (2 * p)%nat with (String.length pre) by exact Hp.
  rewrite substring_skip_app, <- Hlen, substring_0_app.
  destruct (parse_hex s) eqn:Hs; [|contradiction].
  f_equal. f_equal.
  rewrite length_app_string, Hlen, Hp.
  replace (2 * p + 2 * n)%nat with ((p + n) * 2)%nat by lia.
  symmetry. apply Nat.div_mul. lia.
Qed.

Lemma reads_readUint (width : nat) (v : N) :
  v < 256 ^ N.of_nat width ->
  reads (StringReader.readUint width) (uint_le width v) v.
Proof.
  intros Hv. unfold StringReader.readUint.
  rewrite <- (app_empty_r (uint_le width v)).
  eapply reads_bind.
  - apply reads_read; [apply length_uint_le | apply is_hex_uint_le].
  - rewrite hex_value_uint by exact Hv. apply reads_ret.
Qed.

Lemma reads_readNextLen (n : N) :
  n < 2 ^ 64 -> reads StringReader.readNextLen (num2VarInt n) n.
Proof.
  intros Hn. unfold StringReader.readNextLen, num2VarInt, num2hexstring.
  destruct (N.ltb_spec n 0xFD) as [H1|H1].
  - rewrite <- (app_empty_r (uint_be 1 n)).
    eapply reads_bind.
    + change (uint_be 1 n) with (uint_le 1 n). apply reads_readUint. simpl. lia.
    + destruct (N.eqb_spec n 0xFD); [lia|].
      destruct (N.eqb_spec n 0xFE); [lia|].
      destruct (N.eqb_spec n 0xFF); [lia|]. apply reads_ret.
  - destruct (N.leb_spec n 0xFFFF) as [H2|H2].
    + eapply reads_bind.
      * change "fd" with (uint_le 1 0xFD). apply reads_readUint. reflexivity.
      * change (reads (StringReader.readUint 2) (uint_le 2 n) n).
        apply reads_readUint. simpl. lia.
    + destruct (N.leb_spec n 0xFFFFFFFF) as [H3|H3].
      * eapply reads_bind.
        -- change "fe" with (uint_le 1 0xFE). apply reads_readUint. reflexivity.
        -- change (reads (StringReader.readUint 4) (uint_le 4 n) n).
           apply reads_readUint. simpl. lia.
      * eapply reads_bind.
        -- change "ff" with (uint_le 1 0xFF). apply reads_readUint. reflexivity.
        -- change (reads (StringReader.readUint 8) (uint_le 8 n) n).
           apply reads_readUint. simpl. lia.
Qed.

Lemma reads_readNextBytes (hex : string) :
  Nat.even (String.length hex) = true -> is_hex hex ->
  N.of_nat (String.length hex / 2) < 2 ^ 64 ->
  reads StringReader.readNextBytes (hex2VarBytes hex) hex.
Proof.
  intros He Hh Hlen. unfold StringReader.readNextBytes, hex2VarBytes.
  eapply reads_bind.
  - apply reads_readNextLen. exact Hlen.
  - apply reads_read; [|exact Hh].
    destruct (even_half _ He) as [k [Hk Hhalf]]. rewrite Hhalf. lia.
Qed.

Lemma reads_Address (a : Address.t) :
  String.length (Address.value a) = 40%nat -> is_hex (Address.value a) ->
  reads Address.deserialize (Address.serialize a) a.
Proof.
  intros Hl Hh. unfold Address.deserialize, Address.serialize.
  rewrite <- (app_empty_r (Address.value a)).
  eapply reads_bind.
  - apply reads_read; [exact Hl | exact Hh].
  - destruct a. apply reads_ret.
Qed.

(** ** Strings and their hex *)

Lemma length_str2hexstr (s : string) :
  String.length (str2hexstr s) = (2 * String.length s)%nat.
Proof.
  induction s as [|c s IH]; [reflexivity|].
  simpl str2hexstr. rewrite length_app_string, IH. simpl. lia.
Qed.

Lemma is_hex_str2hexstr (s : string) : is_hex (str2hexstr s).
Proof.
  induction s as [|c s IH]; [apply is_hex_empty|].
  simpl str2hexstr. apply is_hex_app. split; [apply is_hex_byte_hex | exact IH].
Qed.

Lemma hexstr2str_str2hexstr (s : string) : hexstr2str (str2hexstr s) = s.
Proof.
  induction s as [|c s IH]; [reflexivity|].
  simpl str2hexstr. unfold byte_hex at 1. rewrite !app_String, app_empty_l.
  simpl hexstr2str. rewrite IH. f_equal.
  fold (byte_hex (N_of_ascii c)).
  unfold hex_value, parse_hex. rewrite parse_byte_hex.
  rewrite N.mod_small by apply N_ascii_bounded.
  simpl. apply ascii_N_embedding.
Qed.

(** ** Records read back from their bytes *)

Lemma reads_eq {A : Type} (m : M StringReader.t A) (hex : string) (a b : A) :
  reads m hex a -> a = b -> reads m hex b.
Proof. intros H <-. exact H. Qed.

Lemma reads_at_start {A : Type} (m : M StringReader.t A) (hex rest : string)
    (a : A) :
  reads m hex a ->
  m (StringReader.new (hex +:+ rest))
  = (Ok a, StringReader.mk (hex +:+ rest) (String.length hex / 2)).
Proof. intros [_ H]. exact (H "" rest eq_refl). Qed.

Lemma GovernanceView_reads (g : GovernanceView.t) :
  GovernanceView_fits g ->
  reads GovernanceView.deserialize (GovernanceView.serialize g) g.
Proof.
  intros (Hv & Hh & He & Hx & Hl).
  unfold GovernanceView.serialize, GovernanceView.deserialize, num2hexstring.
  rewrite app_empty_l, !app_assoc_string.
  rewrite <- (app_empty_r (hex2VarBytes _)).
  eapply reads_eq.
  - eapply reads_bind; [apply reads_readUint; exact Hv|].
    eapply reads_bind; [apply reads_readUint; exact Hh|].
    eapply reads_bind; [apply reads_readNextBytes; assumption|].
    apply reads_ret.
  - destruct g. reflexivity.
Qed.

Lemma PeerPoolItem_reads (p : PeerPoolItem.t) :
  PeerPoolItem_fits p ->
  reads PeerPoolItem.deserialize (PeerPoolItem.serialize p) p.
Proof.
  intros (Hi & Hk & Hal & Hah & Hs & Hip & Htp).
  unfold PeerPoolItem.serialize, PeerPoolItem.deserialize, num2hexstring,
    str2VarBytes.
  rewrite app_empty_l, !app_assoc_string.
  rewrite <- (app_empty_r (uint_le 8 (PeerPoolItem.totalPos p))).
  eapply reads_eq.
  - eapply reads_bind; [apply reads_readUint; exact Hi|].
    eapply reads_bind.
    { apply reads_readNextBytes.
      - rewrite length_str2hexstr. apply even_double.
      - apply is_hex_str2hexstr.
      - rewrite length_str2hexstr.
        replace (2 * String.length (PeerPoolItem.peerPubkey p) / 2)%nat
          with (String.length (PeerPoolItem.peerPubkey p)); [exact Hk|].
        rewrite Nat.mul_comm. symmetry. apply Nat.div_mul. lia. }
    eapply reads_bind; [apply reads_Address; assumption|].
    eapply reads_bind.
    { apply reads_read; [apply length_uint_be|].
      change (uint_be 1 (PeerPoolItem.status p))
        with (uint_le 1 (PeerPoolItem.status p)).
      apply is_hex_uint_le. }
    eapply reads_bind;
      [apply reads_readUint; eapply N.lt_trans; [exact Hip | reflexivity]|].
    eapply reads_bind;
      [apply reads_readUint; eapply N.lt_trans; [exact Htp | reflexivity]|].
    apply reads_ret.
  - rewrite hexstr2str_str2hexstr.
    change (uint_be 1 (PeerPoolItem.status p))
      with (rev_pairs (uint_le 1 (PeerPoolItem.status p))).
    rewrite hex_value_uint by exact Hs.
    destruct p. reflexivity.
Qed.

Lemma serialize_entries_reads (items : list PeerPoolItem.t) :
  Forall PeerPoolItem_fits items ->
  reads (decode_entries (length items)) (serialize_entries items) items.
Proof.
  induction 1 as [|p items Hp _ IH]; [apply reads_ret|].
  simpl decode_entries. simpl serialize_entries.
  eapply reads_bind; [apply PeerPoolItem_reads; exact Hp|].
  rewrite <- (app_empty_r (serialize_entries items)).
  eapply reads_bind; [exact IH | apply reads_ret].
Qed.

(** ** More on the transaction builders *)

(** The three builders that compare the lengths throw [INVALID_PARAMS] on
    every pair of lists of different lengths, and leave the struct as it
    was. *)
Theorem vote_style_rejects_mismatch `{node : Collaborators}
    (userAddr payer : Address.t) (keys : list string) (pos : list Z)
    (gasPrice gasLimit : string) (s0 : Struct) :
  length keys <> length pos ->
  makeVoteForPeerTx userAddr keys pos payer gasPrice gasLimit s0
    = (Err INVALID_PARAMS, s0) /\
  makeUnvoteForPeerTx userAddr keys pos payer gasPrice gasLimit s0
    = (Err INVALID_PARAMS, s0) /\
  makeWithdrawTx userAddr keys pos payer gasPrice gasLimit s0
    = (Err INVALID_PARAMS, s0).
Proof. apply guarded_reject. Qed.

Lemma vote_style_rejects_mismatch_witness :
  makeVoteForPeerTx (node := sample_node) contractAddress ["a"] [] contractAddress
    "500" "20000" [VNumber 9] = (Err INVALID_PARAMS, [VNumber 9]) /\
  makeUnvoteForPeerTx (node := sample_node) contractAddress ["a"] [] contractAddress
    "500" "20000" [VNumber 9] = (Err INVALID_PARAMS, [VNumber 9]) /\
  makeWithdrawTx (node := sample_node) contractAddress ["a"] [] contractAddress
    "500" "20000" [VNumber 9] = (Err INVALID_PARAMS, [VNumber 9]).
Proof.
  apply (vote_style_rejects_mismatch (node := sample_node) contractAddress
           contractAddress ["a"] [] "500" "20000" [VNumber 9]).
  discriminate.
Defined.




Section GuardedAccept.

Context `{node : Collaborators}.


End GuardedAccept.



(** [makeRegisterCandidateTx] checks [initPos] first: when
    [varifyPositiveInt] throws, the builder throws the same value and no
    struct is made. *)
Theorem registerCandidate_validates_first `{node : Collaborators}
    (ontid peerPubKey : string) (keyNo : Z) (userAddr : Address.t)
    (initPos : Z) (payer : Address.t) (gasPrice gasLimit : string)
    (s0 : Struct) (e : Error) :
  varifyPositiveInt initPos = Err e ->
  makeRegisterCandidateTx ontid peerPubKey keyNo userAddr initPos payer
    gasPrice gasLimit s0 = (Err e, s0).
Proof.
  intros Hv. unfold makeRegisterCandidateTx, bindM, lift. now rewrite Hv.
Qed.

Lemma registerCandidate_validates_first_witness :
  makeRegisterCandidateTx (node := sample_node) "did:ont:A" "abc" 1
    contractAddress 0 contractAddress "500" "20000" [VNumber 9]
  = (Err INVALID_PARAMS, [VNumber 9]).
Proof.
  apply (registerCandidate_validates_first (node := sample_node)).
  reflexivity.
Defined.

Lemma hex_digit_not_i (d : N) : hex_digit (d mod 16) <> "i"%char.
Proof.
  intros H. pose proof (hex_digit_is_digit d) as Hd.
  rewrite H in Hd. discriminate Hd.
Qed.

Lemma str2hexstr_not_did (s : string) : substr0 3 (str2hexstr s) <> "did".
Proof.
  destruct s as [|c s]; [discriminate|].
  simpl str2hexstr. unfold byte_hex. rewrite !app_String.
  unfold substr0. simpl. intros H. injection H as _ H _.
  exact (hex_digit_not_i _ H).
Qed.

(** An [ontid] that begins with [did] and its hex give the same struct and
    the same transaction: the hex of a string never begins with [did], so
    it is added as it is. *)
Theorem registerCandidate_hex_ontid `{node : Collaborators}
    (ontid peerPubKey : string) (keyNo : Z) (userAddr : Address.t)
    (initPos : Z) (payer : Address.t) (gasPrice gasLimit : string)
    (s0 : Struct) :
  substr0 3 ontid = "did" ->
  makeRegisterCandidateTx (str2hexstr ontid) peerPubKey keyNo userAddr initPos
    payer gasPrice gasLimit s0
  = makeRegisterCandidateTx ontid peerPubKey keyNo userAddr initPos
      payer gasPrice gasLimit s0.
Proof.
  intros Hd. unfold makeRegisterCandidateTx.
  rewrite Hd. simpl String.eqb.
  pose proof (str2hexstr_not_did ontid) as Hn.
  apply String.eqb_neq in Hn. rewrite Hn. reflexivity.
Qed.

Lemma registerCandidate_hex_ontid_witness :
  makeRegisterCandidateTx (node := sample_node) (str2hexstr "did:ont:A") "abc" 1
    contractAddress 1000 contractAddress "500" "20000" []
  = makeRegisterCandidateTx (node := sample_node) "did:ont:A" "abc" 1
      contractAddress 1000 contractAddress "500" "20000" [].
Proof.
  apply (registerCandidate_hex_ontid (node := sample_node)). reflexivity.
Defined.

(** ** More on the record codecs *)

(** A view record whose fields fit their widths is read back from its
    serialization, whatever bytes follow it, and the cursor is left on the
    byte after the record. *)
Theorem GovernanceView_roundtrip (g : GovernanceView.t) (rest : string) :
  GovernanceView_fits g ->
  GovernanceView.deserialize
    (StringReader.new (GovernanceView.serialize g +:+ rest))
  = (Ok g, StringReader.mk (GovernanceView.serialize g +:+ rest)
             (String.length (GovernanceView.serialize g) / 2)).
Proof. intros Hg. apply reads_at_start, GovernanceView_reads, Hg. Qed.

Lemma GovernanceView_roundtrip_witness :
  GovernanceView.deserialize
    (StringReader.new
       (GovernanceView.serialize (GovernanceView.mk 2 5 "abcd") +:+ "ff"))
  = (Ok (GovernanceView.mk 2 5 "abcd"),
     StringReader.mk
       (GovernanceView.serialize (GovernanceView.mk 2 5 "abcd") +:+ "ff")
       (String.length (GovernanceView.serialize (GovernanceView.mk 2 5 "abcd"))
        / 2)).
Proof.
  apply (GovernanceView_roundtrip (GovernanceView.mk 2 5 "abcd") "ff").
  repeat split; try reflexivity; discriminate.
Defined.

(** A pool entry whose fields fit their widths is read back from its
    serialization field for field, whatever bytes follow it, and the cursor
    is left on the byte after the entry. *)
Theorem PeerPoolItem_roundtrip (p : PeerPoolItem.t) (rest : string) :
  PeerPoolItem_fits p ->
  PeerPoolItem.deserialize
    (StringReader.new (PeerPoolItem.serialize p +:+ rest))
  = (Ok p, StringReader.mk (PeerPoolItem.serialize p +:+ rest)
             (String.length (PeerPoolItem.serialize p) / 2)).
Proof. intros Hp. apply reads_at_start, PeerPoolItem_reads, Hp. Qed.

Lemma sample_items_fit : PeerPoolItem_fits alice /\ PeerPoolItem_fits bob.
Proof. split; repeat split; try reflexivity; discriminate. Qed.

Lemma PeerPoolItem_roundtrip_witness :
  PeerPoolItem.deserialize
    (StringReader.new (PeerPoolItem.serialize bob +:+ "00"))
  = (Ok bob, StringReader.mk (PeerPoolItem.serialize bob +:+ "00")
               (String.length (PeerPoolItem.serialize bob) / 2)).
Proof.
  apply (PeerPoolItem_roundtrip bob "00").
  repeat split; try reflexivity; discriminate.
Defined.

(** ** More on the pool query *)

Lemma size_foldl_pool_insert (items : list PeerPoolItem.t) :
  forall acc,
    (size (foldl pool_insert acc items) <= size acc + length items)%nat.
Proof.
  induction items as [|p items IH]; intros acc; simpl; [lia|].
  etransitivity; [apply IH|].
  unfold pool_insert. rewrite map_size_insert.
  destruct (acc !! PeerPoolItem.peerPubkey p); unfold id; lia.
Qed.

Lemma size_entries_map (items : list PeerPoolItem.t) :
  (size (entries_map items) <= length items)%nat.
Proof.
  pose proof (size_foldl_pool_insert items ∅) as H.
  rewrite foldl_pool_insert, (right_id_L ∅ (∪)), map_size_empty in H. exact H.
Qed.

Lemma foldl_pool_insert_keeps (l : list PeerPoolItem.t) (k : string) :
  Forall (fun q => PeerPoolItem.peerPubkey q <> k) l ->
  forall acc, foldl pool_insert acc l !! k = acc !! k.
Proof.
  induction 1 as [|q l Hq _ IH]; intros acc; simpl; [reflexivity|].
  rewrite IH. unfold pool_insert. now rewrite lookup_insert_ne.
Qed.

Lemma entries_map_last (l1 l2 : list PeerPoolItem.t) (p : PeerPoolItem.t) :
  Forall (fun q => PeerPoolItem.peerPubkey q <> PeerPoolItem.peerPubkey p) l2 ->
  entries_map (l1 ++ p :: l2) !! PeerPoolItem.peerPubkey p = Some p.
Proof.
  intros Hl2.
  pose proof (foldl_pool_insert (l1 ++ p :: l2) ∅) as Hf.
  rewrite (right_id_L ∅ (∪)) in Hf. rewrite <- Hf.
  rewrite foldl_app. simpl.
  rewrite foldl_pool_insert_keeps by exact Hl2.
  unfold pool_insert. apply lookup_insert_eq.
Qed.

Lemma size_entries_map_NoDup (items : list PeerPoolItem.t) :
  NoDup (map PeerPoolItem.peerPubkey items) ->
  size (entries_map items) = length items.
Proof.
  intros Hnd. unfold entries_map.
  assert (Hk : NoDup (reverse
            (map (fun p => (PeerPoolItem.peerPubkey p, p)) items)).*1).
  { rewrite fmap_reverse, reverse_Permutation.
    change (NoDup (map fst
      (map (fun p => (PeerPoolItem.peerPubkey p, p)) items))).
    rewrite map_map. exact Hnd. }
  rewrite <- length_map_to_list.
  rewrite (Permutation_length (map_to_list_to_map _ Hk)).
  now rewrite length_reverse, length_map.
Qed.

Lemma ordinary_entries_cons (p : PeerPoolItem.t) (items : list PeerPoolItem.t) :
  ordinary_entries (p :: items)
  = if String.eqb (PeerPoolItem.peerPubkey p) "__proto__"
    then ordinary_entries items else p :: ordinary_entries items.
Proof.
  unfold ordinary_entries. simpl.
  now destruct (String.eqb (PeerPoolItem.peerPubkey p) "__proto__").
Qed.

Lemma ordinary_entries_Forall (items : list PeerPoolItem.t) :
  Forall ordinary_key (ordinary_entries items).
Proof.
  induction items as [|p items IH]; [constructor|].
  rewrite ordinary_entries_cons.
  destruct (String.eqb_spec (PeerPoolItem.peerPubkey p) "__proto__");
    [exact IH | constructor; assumption].
Qed.

Lemma ordinary_entries_all (items : list PeerPoolItem.t) :
  Forall ordinary_key items -> ordinary_entries items = items.
Proof.
  induction 1 as [|p items Hp _ IH]; [reflexivity|].
  rewrite ordinary_entries_cons, IH.
  destruct (String.eqb_spec (PeerPoolItem.peerPubkey p) "__proto__");
    [contradiction | reflexivity].
Qed.

Lemma ordinary_entries_length (items : list PeerPoolItem.t) :
  (length (ordinary_entries items) <= length items)%nat.
Proof.
  induction items as [|p items IH]; [reflexivity|].
  rewrite ordinary_entries_cons.
  destruct (String.eqb (PeerPoolItem.peerPubkey p) "__proto__"); simpl; lia.
Qed.

Lemma ordinary_entries_middle (l1 l2 : list PeerPoolItem.t)
    (p : PeerPoolItem.t) :
  ordinary_key p ->
  ordinary_entries (l1 ++ p :: l2)
  = ordinary_entries l1 ++ p :: ordinary_entries l2.
Proof.
  intros Hp. induction l1 as [|q l1 IH]; simpl app.
  - rewrite ordinary_entries_cons.
    destruct (String.eqb_spec (PeerPoolItem.peerPubkey p) "__proto__");
      [contradiction | reflexivity].
  - rewrite !ordinary_entries_cons, IH.
    now destruct (String.eqb (PeerPoolItem.peerPubkey q) "__proto__").
Qed.

Lemma ordinary_entries_keeps (l : list PeerPoolItem.t) (k : string) :
  Forall (fun q => PeerPoolItem.peerPubkey q <> k) l ->
  Forall (fun q => PeerPoolItem.peerPubkey q <> k) (ordinary_entries l).
Proof.
  induction 1 as [|q l Hq _ IH]; [constructor|].
  rewrite ordinary_entries_cons.
  destruct (String.eqb (PeerPoolItem.peerPubkey q) "__proto__");
    [exact IH | constructor; assumption].
Qed.

(** The own properties after the assignments: the entries with an ordinary
    key, put in one after the other. *)
Lemma own_foldl_object_insert (items : list PeerPoolItem.t) :
  forall acc,
    JsObject.own (foldl object_insert acc items)
    = foldl pool_insert (JsObject.own acc) (ordinary_entries items).
Proof.
  induction items as [|p items IH]; intros acc; [reflexivity|].
  rewrite ordinary_entries_cons.
  change (foldl object_insert acc (p :: items))
    with (foldl object_insert (object_insert acc p) items).
  rewrite IH. unfold object_insert, JsObject.set.
  now destruct (String.eqb (PeerPoolItem.peerPubkey p) "__proto__").
Qed.

Lemma own_of_entries (items : list PeerPoolItem.t) :
  JsObject.own (foldl object_insert JsObject.empty items)
  = entries_map (ordinary_entries items).
Proof.
  rewrite own_foldl_object_insert, foldl_pool_insert.
  apply (right_id_L ∅ (∪)).
Qed.

(** When the storage holds a serialized view and, under the pool key of
    that view, a count followed by that many serialized entries (each
    within its widths), [getPeerPoolMap] returns an object whose own
    properties are the entries with a key other than [__proto__]: such an
    entry, when no later entry shares its key, is found under its key; the
    object has at most as many keys as there are entries, and as many when
    the keys are pairwise distinct and none is [__proto__], which is never
    an own key; bytes after the view and after the last entry are
    ignored. *)
Theorem getPeerPoolMap_of_serialized `{node : Collaborators}
    (url : option string) (g : GovernanceView.t)
    (items : list PeerPoolItem.t) (after_view after_pool : string) :
  let codeHash := toHexString contractAddress in
  let count := N.of_nat (length items) in
  GovernanceView_fits g ->
  Forall PeerPoolItem_fits items ->
  count < 2 ^ 32 ->
  getStorage url codeHash (str2hexstr "governanceView")
    = Some (GovernanceView.serialize g +:+ after_view) ->
  getStorage url codeHash
    (str2hexstr "peerPool" +:+ num2hexstring (GovernanceView.view g) 4 true)
    = Some (num2hexstring count 4 true +:+ serialize_entries items
            +:+ after_pool) ->
  exists obj,
    getPeerPoolMap url = Ok obj /\
    JsObject.own obj = entries_map (ordinary_entries items) /\
    JsObject.own obj !! "__proto__" = None /\
    (size (JsObject.own obj) <= length items)%nat /\
    (NoDup (map PeerPoolItem.peerPubkey items) ->
     Forall ordinary_key items ->
     size (JsObject.own obj) = length items) /\
    (forall l1 p l2,
       items = l1 ++ p :: l2 ->
       ordinary_key p ->
       Forall (fun q => PeerPoolItem.peerPubkey q <> PeerPoolItem.peerPubkey p)
         l2 ->
       JsObject.own obj !! PeerPoolItem.peerPubkey p = Some p).
Proof.
  intros codeHash count Hg Hitems Hcount Hview Hpool.
  exists (foldl object_insert JsObject.empty items).
  split; [|rewrite own_of_entries;
           split; [reflexivity|split; [|split; [|split]]]].
  - subst codeHash. unfold getPeerPoolMap. cbv zeta.
    rewrite Hview. cbn [blob]. unfold eval at 1.
    rewrite (reads_at_start _ _ after_view _ (GovernanceView_reads g Hg)).
    cbn [fst bind]. rewrite Hpool. cbn [blob].
    unfold eval, bindM, num2hexstring, StringReader.readInt.
    rewrite (reads_at_start _ _ (serialize_entries items +:+ after_pool) _
               (reads_readUint 4 count Hcount)).
    subst count. rewrite Nat2N.id.
    destruct (serialize_entries_reads items Hitems) as [_ Hr].
    specialize (Hr (uint_le 4 (N.of_nat (length items))) after_pool
                  (eq_trans (f_equal Nat.even (length_uint_le 4 _)) eq_refl)).
    rewrite length_uint_le in Hr at 1.
    change (2 * 4 / 2)%nat with 4%nat in Hr.
    rewrite length_uint_le. change (2 * 4 / 2)%nat with 4%nat.
    destruct (peerPool_loop_decode (length items) JsObject.empty _ _ _ Hr)
      as [Hl _].
    now rewrite Hl.
  - pose proof (foldl_pool_insert (ordinary_entries items) ∅) as Hf.
    rewrite (right_id_L ∅ (∪)) in Hf. rewrite <- Hf.
    rewrite foldl_pool_insert_keeps by apply ordinary_entries_Forall.
    apply lookup_empty.
  - etransitivity; [apply size_entries_map | apply ordinary_entries_length].
  - intros Hnd Hord. rewrite (ordinary_entries_all _ Hord).
    now apply size_entries_map_NoDup.
  - intros l1 p l2 -> Hp Hl2.
    rewrite (ordinary_entries_middle _ _ _ Hp).
    apply entries_map_last, ordinary_entries_keeps, Hl2.
Qed.

Lemma getPeerPoolMap_of_serialized_witness :
  exists obj,
    getPeerPoolMap (node := proto_node) None = Ok obj /\
    JsObject.own obj = entries_map (ordinary_entries [alice; mallory]) /\
    JsObject.own obj !! "__proto__" = None /\
    (size (JsObject.own obj) <= length [alice; mallory])%nat /\
    (NoDup (map PeerPoolItem.peerPubkey [alice; mallory]) ->
     Forall ordinary_key [alice; mallory] ->
     size (JsObject.own obj) = length [alice; mallory]) /\
    (forall l1 p l2,
       [alice; mallory] = l1 ++ p :: l2 ->
       ordinary_key p ->
       Forall (fun q => PeerPoolItem.peerPubkey q <> PeerPoolItem.peerPubkey p)
         l2 ->
       JsObject.own obj !! PeerPoolItem.peerPubkey p = Some p).
Proof.
  apply (getPeerPoolMap_of_serialized (node := proto_node) None
           (GovernanceView.mk 2 5 "") [alice; mallory] "" "").
  - repeat split; try reflexivity; discriminate.
  - repeat constructor; try reflexivity; discriminate.
  - reflexivity.
  - vm_compute. reflexivity.
  - vm_compute. reflexivity.
Defined.

(** ** More on the storage queries *)

Ltac open_bind H :=
  repeat match type of H with
         | context [match ?m ?s with _ => _ end] =>
             let r := fresh "r" in
             let sr := fresh "sr" in
             let E := fresh "E" in
             destruct (m s) as [[r|r] sr] eqn:E; [|discriminate H]
         end.

Lemma truthy_not_empty (result : option string) :
  truthy result = true -> ~ empty_result result.
Proof.
  intros Ht [-> | ->]; discriminate Ht.
Qed.

Lemma not_truthy_empty (result : option string) :
  truthy result = false -> empty_result result.
Proof.
  destruct result as [[|c s]|]; intros H; try discriminate H;
    [right | left]; reflexivity.
Qed.

Lemma PeerAttributes_deserialize_complete (sr sr' : StringReader.t)
    (pa : PeerAttributes.t) :
  PeerAttributes.deserialize sr = (Ok pa, sr') -> PeerAttributes_complete pa.
Proof.
  unfold PeerAttributes.deserialize, bindM, ret. intros H.
  open_bind H. injection H as <- _. repeat split; eauto.
Qed.

Lemma SplitFeeAddress_deserialize_complete (sr sr' : StringReader.t)
    (sfa : SplitFeeAddress.t) :
  SplitFeeAddress.deserialize sr = (Ok sfa, sr') ->
  is_Some (SplitFeeAddress.address sfa).
Proof.
  unfold SplitFeeAddress.deserialize, bindM, ret. intros H.
  open_bind H. injection H as <- _. simpl. eauto.
Qed.

Lemma AuthorizeInfo_deserialize_complete (sr sr' : StringReader.t)
    (ai : AuthorizeInfo.t) :
  AuthorizeInfo.deserialize sr = (Ok ai, sr') -> AuthorizeInfo_complete ai.
Proof.
  unfold AuthorizeInfo.deserialize, bindM, ret. intros H.
  open_bind H. injection H as <- _. repeat split; eauto.
Qed.

Lemma eval_Ok {S A : Type} (m : M S A) (s : S) (a : A) :
  eval m s = Ok a -> exists s', m s = (Ok a, s').
Proof. unfold eval. destruct (m s) as [r s']. simpl. intros ->. eauto. Qed.

(** A record returned by [getAttributes], [getSplitFeeAddress] or
    [getAuthorizeInfo] tells whether the storage held one: either the fetch
    was empty and the record is the freshly constructed one (no field set;
    [amount] 0 for a fee split), or the fetch was not empty and every field
    is set. *)
Theorem query_absent_or_complete `{node : Collaborators} (peerPubKey : string)
    (address : Address.t) (url : option string) (pa : PeerAttributes.t)
    (sfa : SplitFeeAddress.t) (ai : AuthorizeInfo.t) :
  let codeHash := toHexString contractAddress in
  let absent key := empty_result (getStorage url codeHash key) in
  (getAttributes peerPubKey url = Ok pa ->
   let key := str2hexstr PEER_ATTRIBUTES +:+ peerPubKey in
   (absent key /\ pa = PeerAttributes.new) \/
   (~ absent key /\ PeerAttributes_complete pa)) /\
  (getSplitFeeAddress address url = Ok sfa ->
   let key := str2hexstr SPLIT_FEE_ADDRESS +:+ Address.serialize address in
   (absent key /\ sfa = SplitFeeAddress.new) \/
   (~ absent key /\ is_Some (SplitFeeAddress.address sfa))) /\
  (getAuthorizeInfo peerPubKey address url = Ok ai ->
   let key :=
     str2hexstr AUTHORIZE_INFO_POOL +:+ peerPubKey
     +:+ Address.serialize address in
   (absent key /\ ai = AuthorizeInfo.new) \/
   (~ absent key /\ AuthorizeInfo_complete ai)).
Proof.
  intros codeHash absent. subst codeHash absent.
  unfold getAttributes, getSplitFeeAddress, getAuthorizeInfo. cbv zeta.
  repeat split; intros Hq;
    match type of Hq with
    | context [truthy ?r] => destruct (truthy r) eqn:Ht
    end;
    first
      [ left; split; [now apply not_truthy_empty | now injection Hq as <-]
      | right; split; [now apply truthy_not_empty|];
        apply eval_Ok in Hq; destruct Hq as [sr' Hq];
        eauto using PeerAttributes_deserialize_complete,
          SplitFeeAddress_deserialize_complete,
          AuthorizeInfo_deserialize_complete ].
Qed.

Lemma query_absent_or_complete_witness :
  ((empty_result
      (getStorage (Collaborators := attributes_node) None
         (toHexString (Collaborators := attributes_node) contractAddress)
         (str2hexstr PEER_ATTRIBUTES +:+ "abc")) /\
    PeerAttributes.mk (Some "abc") (Some 1) (Some 3) (Some 4) (Some 2)
      (Some "") (Some "") (Some "") (Some "") = PeerAttributes.new) \/
   (~ empty_result
        (getStorage (Collaborators := attributes_node) None
           (toHexString (Collaborators := attributes_node) contractAddress)
           (str2hexstr PEER_ATTRIBUTES +:+ "abc")) /\
    PeerAttributes_complete
      (PeerAttributes.mk (Some "abc") (Some 1) (Some 3) (Some 4) (Some 2)
         (Some "") (Some "") (Some "") (Some "")))) /\
  ((empty_result
      (getStorage (Collaborators := sample_node) None
         (toHexString (Collaborators := sample_node) contractAddress)
         (str2hexstr SPLIT_FEE_ADDRESS +:+ Address.serialize contractAddress)) /\
    SplitFeeAddress.new = SplitFeeAddress.new) \/
   (~ empty_result
        (getStorage (Collaborators := sample_node) None
           (toHexString (Collaborators := sample_node) contractAddress)
           (str2hexstr SPLIT_FEE_ADDRESS +:+ Address.serialize contractAddress)) /\
    is_Some (SplitFeeAddress.address SplitFeeAddress.new))) /\
  ((empty_result
      (getStorage (Collaborators := sample_node) None
         (toHexString (Collaborators := sample_node) contractAddress)
         (str2hexstr AUTHORIZE_INFO_POOL +:+ "abc"
          +:+ Address.serialize contractAddress)) /\
    AuthorizeInfo.new = AuthorizeInfo.new) \/
   (~ empty_result
        (getStorage (Collaborators := sample_node) None
           (toHexString (Collaborators := sample_node) contractAddress)
           (str2hexstr AUTHORIZE_INFO_POOL +:+ "abc"
            +:+ Address.serialize contractAddress)) /\
    AuthorizeInfo_complete AuthorizeInfo.new)).
Proof.
  split; [|split].
  - apply (query_absent_or_complete (node := attributes_node) "abc"
             contractAddress None
             (PeerAttributes.mk (Some "abc") (Some 1) (Some 3) (Some 4) (Some 2)
                (Some "") (Some "") (Some "") (Some ""))
             SplitFeeAddress.new AuthorizeInfo.new).
    vm_compute. reflexivity.
  - apply (query_absent_or_complete (node := sample_node) "abc"
             contractAddress None PeerAttributes.new
             SplitFeeAddress.new AuthorizeInfo.new).
    reflexivity.
  - apply (query_absent_or_complete (node := sample_node) "abc"
             contractAddress None PeerAttributes.new
             SplitFeeAddress.new AuthorizeInfo.new).
    reflexivity.
Defined.

(** ** More on the big-integer codec *)

Lemma toString16_upper (n : N) :
  n < 16 ^ N.of_nat (String.length (toString16 n)).
Proof.
  pose proof (parse_hex_from_lt _ _ _ (parse_toString16 n)) as H.
  rewrite N.add_0_l, N.mul_1_l in H. exact H.
Qed.

Lemma toString16_lower (n : N) :
  0 < n -> 16 ^ N.of_nat (String.length (toString16 n) - 1) <= n.
Proof. intros Hn. apply hex_digits_lower; [apply log2_fuel_bound | exact Hn]. Qed.

Lemma toString16_length_pos (n : N) : (1 <= String.length (toString16 n))%nat.
Proof. apply hex_digits_nonempty. Qed.

Lemma pow256 (k : nat) : 256 ^ N.of_nat k = 16 ^ N.of_nat (2 * k).
Proof.
  rewrite Nat2N.inj_mul, N.pow_mul_r. reflexivity.
Qed.

Lemma length_toHexstr (n : N) :
  exists hex,
    BigInt.toHexstr (BigInt.mk n) = Ok hex /\
    String.length hex = String.length (pad_even (toString16 n)).
Proof.
  eexists. split; [apply toHexstr_eq|].
  simpl. apply length_rev_pairs, pad_even_length.
Qed.

(** The encoding of a positive integer is the least number of bytes that
    hold it: [toHexstr] returns [L] whole bytes with
    [256 ^ (L - 1) <= n < 256 ^ L].  No sign byte is added, so the top bit
    of the last byte may be set. *)
Theorem toHexstr_byte_length (n : N) :
  0 < n ->
  exists hex,
    BigInt.toHexstr (BigInt.mk n) = Ok hex /\
    Nat.even (String.length hex) = true /\
    256 ^ N.of_nat (String.length hex / 2 - 1) <= n
    /\ n < 256 ^ N.of_nat (String.length hex / 2).
Proof.
  intros Hn. destruct (length_toHexstr n) as (hex & Hh & Hlen).
  exists hex. split; [exact Hh|]. rewrite Hlen.
  split; [apply pad_even_length|].
  pose proof (toString16_upper n) as Hup.
  pose proof (toString16_lower n Hn) as Hlow.
  pose proof (toString16_length_pos n) as Hpos.
  unfold pad_even.
  destruct (Nat.even (String.length (toString16 n))) eqn:He.
  - destruct (even_half _ He) as (k & Hk & Hhalf).
    rewrite Hhalf, !pow256. rewrite Hk in Hup, Hlow. split; [|exact Hup].
    etransitivity; [|exact Hlow].
    apply N.pow_le_mono_r; lia.
  - rewrite app_String, app_empty_l.
    change (String.length (String "0" (toString16 n)))
      with (S (String.length (toString16 n))).
    assert (He' : Nat.even (S (String.length (toString16 n))) = true)
      by (rewrite Nat.even_succ, <- Nat.negb_even, He; reflexivity).
    destruct (even_half _ He') as (k & Hk & Hhalf).
    rewrite Hhalf, !pow256.
    replace (String.length (toString16 n)) with (2 * k - 1)%nat in Hup, Hlow
      by lia.
    split.
    + etransitivity; [|exact Hlow]. apply N.pow_le_mono_r; lia.
    + eapply N.lt_le_trans; [exact Hup|]. apply N.pow_le_mono_r; lia.
Qed.

Lemma toHexstr_byte_length_witness :
  exists hex,
    BigInt.toHexstr (BigInt.mk 128) = Ok hex /\
    Nat.even (String.length hex) = true /\
    256 ^ N.of_nat (String.length hex / 2 - 1) <= 128
    /\ 128 < 256 ^ N.of_nat (String.length hex / 2).
Proof. apply (toHexstr_byte_length 128). reflexivity. Defined.

Example toHexstr_128 : BigInt.toHexstr (BigInt.mk 128) = Ok "80".
Proof. reflexivity. Qed.

(** [fromHexstr] ignores zero bytes at the end of its input: a blob and the
    blob followed by [00] decode alike (and fail alike), so several blobs
    decode to one integer. *)
Theorem fromHexstr_trailing_zero_byte (hex : string) :
  BigInt.fromHexstr (hex +:+ "00") = BigInt.fromHexstr hex.
Proof.
  unfold BigInt.fromHexstr, reverseHex.
  rewrite length_app_string. simpl String.length.
  replace (String.length hex + 2)%nat with (S (S (String.length hex))) by lia.
  rewrite Nat.even_succ_succ.
  destruct (Nat.even (String.length hex)) eqn:He; [|reflexivity].
  rewrite rev_pairs_snoc by exact He. reflexivity.
Qed.

Example fromHexstr_0100 :
  BigInt.fromHexstr "0100" = Ok (BigInt.mk 1) /\
  BigInt.toHexstr (BigInt.mk 1) = Ok "01".
Proof. split; reflexivity. Qed.

(** Two [BigInt]s with the same encoding are the same integer. *)
Theorem toHexstr_injective (a b : BigInt.t) :
  BigInt.toHexstr a = BigInt.toHexstr b -> a = b.
Proof.
  rewrite !toHexstr_eq. intros H. injection H as H.
  assert (Ha : BigInt.fromHexstr
                 (rev_pairs (pad_even (toString16 (BigInt.value a))))
               = Ok (BigInt.mk (BigInt.value a))).
  { apply fromHexstr_rev_pairs; [apply pad_even_length|].
    rewrite parse_pad_even. apply parse_toString16. }
  assert (Hb : BigInt.fromHexstr
                 (rev_pairs (pad_even (toString16 (BigInt.value b))))
               = Ok (BigInt.mk (BigInt.value b))).
  { apply fromHexstr_rev_pairs; [apply pad_even_length|].
    rewrite parse_pad_even. apply parse_toString16. }
  rewrite H, Hb in Ha. injection Ha as Ha.
  destruct a, b. simpl in Ha. now rewrite Ha.
Qed.

Lemma toHexstr_injective_witness :
  BigInt.toHexstr (BigInt.mk (255 + 1)) = BigInt.toHexstr (BigInt.mk 256) /\
  BigInt.mk (255 + 1) = BigInt.mk 256.
Proof.
  split; [reflexivity|].
  apply (toHexstr_injective (BigInt.mk (255 + 1)) (BigInt.mk 256)). reflexivity.
Defined.

(** ** Storage keys *)

(** The storage keys of the queries never collide: the key of a peer's
    attributes, of a fee split, of an authorization record, of the view
    record and of a pool are pairwise different, whatever the public keys,
    the addresses and the view are. *)
Theorem storage_keys_distinct (peerPubKey peerPubKey' : string)
    (address address' : Address.t) (view : N) :
  NoDup [ str2hexstr PEER_ATTRIBUTES +:+ peerPubKey;
          str2hexstr SPLIT_FEE_ADDRESS +:+ Address.serialize address;
          str2hexstr AUTHORIZE_INFO_POOL +:+ peerPubKey'
            +:+ Address.serialize address';
          str2hexstr "governanceView";
          str2hexstr "peerPool" +:+ num2hexstring view 4 true ].
Proof.
  apply (NoDup_fmap_1 (substr0 10)).
  cbv [fmap list_fmap substr0].
  repeat match goal with
         | |- context [String.substring 0 10 ?s] =>
             let r := eval cbv in (String.substring 0 10 s) in
             change (String.substring 0 10 s) with r
         end.
  repeat (apply NoDup_cons; split;
          [rewrite ?elem_of_cons, elem_of_nil; intuition discriminate|]).
  apply NoDup_nil_2.
Qed.
